(** * mini-kart: the promotional-code validator

    A shallow embedding of [internal/coupon] (set.go, loader.go, s3_loader.go,
    validator.go) and of the error values of [internal/model] it returns.

    Conventions.
    - A Go [string] is a byte sequence: Rocq's [string]; [len] is
      [String.length].
    - A Go [(CouponSet, error)] result is a pair of options, [None] for [nil].
    - [map[string]struct{}] is a [gset string].
    - Logging through zerolog has no effect on results and is left out.
    - Goroutines and channels are a schedule-driven machine: every
      communication point of the source is one step, and the scheduler
      chooses who moves and which ready [select] case is taken. *)

From Stdlib Require Import ZArith Ascii String.
From stdpp Require Import base gmap sets list strings pretty.

Local Open Scope string_scope.
Local Open Scope nat_scope.

(* ===================================================================== *)
(** ** internal/model: errors *)
(* ===================================================================== *)

Module model.

(** The two causes a cancelled [context.Context] reports through [Err()]. *)
Inductive ctx_cause := Canceled | DeadlineExceeded.

(** Go [error] values that reach the coupon package. *)
Inductive error :=
| DomainError (code message : string)      (* *model.DomainError *)
| ContextError (c : ctx_cause)             (* context.Canceled / DeadlineExceeded *)
| ExternalError (msg : string)             (* os, gzip, bufio and S3 SDK errors *)
| WrapError (msg : string) (cause : error) (* fmt.Errorf("<msg>: %w", cause) *).

Definition ErrCodeInvalidPromoCode := "INVALID_PROMO_CODE".
Definition ErrCodeInvalidPromoLength := "INVALID_PROMO_LENGTH".

Definition NewDomainError (code message : string) : error :=
  DomainError code message.

Definition ErrInvalidPromoCode : error :=
  NewDomainError ErrCodeInvalidPromoCode
    "Promo code must appear in at least two coupon files".
Definition ErrInvalidPromoLength : error :=
  NewDomainError ErrCodeInvalidPromoLength
    "Promo code must be between 8 and 10 characters".

#[global] Instance ctx_cause_eq_dec : EqDecision ctx_cause.
Proof. solve_decision. Defined.

#[global] Instance error_eq_dec : EqDecision error.
Proof. solve_decision. Defined.

End model.

(* ===================================================================== *)
(** ** context.Context *)
(* ===================================================================== *)

Module context.
Import model.

(** A context over logical time.  [deadline = Some d] means that [Done()]
    is closed from instant [d] on ([d = 0]: cancelled before the call);
    [None] is a context that never fires, like [context.Background()].
    Each operation below says what one instant is. *)
Record Context := mkContext {
  deadline : option nat;
  cause : ctx_cause;
}.

Definition Background : Context := mkContext None Canceled.

(** [<-ctx.Done()] is ready at instant [t]. *)
Definition Done (ctx : Context) (t : nat) : bool :=
  match deadline ctx with
  | Some d => bool_decide (d ≤ t)
  | None => false
  end.

(** [ctx.Err()] once [Done] is closed. *)
Definition Err (ctx : Context) : error := ContextError (cause ctx).

End context.

(* ===================================================================== *)
(** ** internal/coupon/set.go *)
(* ===================================================================== *)

Module coupon.
Import model context.

(** [mapCouponSet]: the keys of [coupons map[string]struct{}]. *)
Record mapCouponSet := mkSet { coupons : gset string }.
Abbreviation CouponSet := mapCouponSet.

Definition NewMapCouponSet (capacity : Z) : CouponSet := mkSet ∅.

Definition Contains (s : CouponSet) (code : string) : bool :=
  bool_decide (code ∈ coupons s).

Definition Size (s : CouponSet) : nat := size (coupons s).

Definition Add (s : CouponSet) (code : string) : CouponSet :=
  mkSet ({[ code ]} ∪ coupons s).

(** [Loader.Load(ctx, filePath) (CouponSet, error)]. *)
Definition LoadResult : Type := option CouponSet * option error.
Definition Loader : Type := Context → string → LoadResult.

(* =================================================================== *)
(** ** loader.go and s3_loader.go *)
(* =================================================================== *)

(** What opening an identifier gives: the open fails, the gzip header is
    rejected, or [bufio.Scanner] yields [lines] one [Scan()] at a time and
    then stops, [Err()] being [tail]. *)
Inductive Source :=
| OpenFails (e : error)
| GzipFails (e : error)
| Stream (lines : list string) (tail : option error).

Section loaders.

(** [strings.TrimSpace], of Go's standard library. *)
Variable TrimSpace : string → string.

(** The [for scanner.Scan()] loop shared by both loaders.  An instant of
    [ctx] is one iteration; [t] is the iteration number and [lineCount]
    the Go counter.  [inr] is the early [return nil, ctx.Err()]. *)
Fixpoint scanLoop (ctx : Context) (lines : list string) (t : nat)
    (lineCount : Z) (set : CouponSet) : CouponSet + error :=
  match lines with
  | [] => inl set
  | text :: rest =>
      if bool_decide (Z.rem lineCount 1000000 = 0%Z) && Done ctx t
      then inr (Err ctx)
      else
        let line := TrimSpace text in
        if bool_decide (line ≠ "")
        then scanLoop ctx rest (S t) (lineCount + 1)%Z (Add set line)
        else scanLoop ctx rest (S t) lineCount set
  end.

(** The codes a stream is expected to give: every line trimmed, the
    empty ones dropped. *)
Definition trimmedLines (lines : list string) : list string :=
  filter (λ line, line ≠ "") (TrimSpace <$> lines).

(** Iteration [t] of the loop over [lines] polls the context: the
    number of lines added before it is a multiple of 1,000,000. *)
Definition polls (lines : list string) (t : nat) : Prop :=
  Z.rem (Z.of_nat (length (trimmedLines (take t lines)))) 1000000 = 0%Z.

(** The part of [Load] after the gzip reader exists; [wrap] is the
    message of the read-error branch. *)
Definition loadStream (ctx : Context) (lines : list string)
    (tail : option error) (wrap : string) : LoadResult :=
  match scanLoop ctx lines 0 0%Z (NewMapCouponSet 100000000) with
  | inr e => (None, Some e)
  | inl set =>
      match tail with
      | Some e => (None, Some (WrapError wrap e))
      | None => (Some set, None)
      end
  end.

(** [fileLoader.Load] over a file system [fs]. *)
Definition fileLoader_Load (fs : string → Source) : Loader :=
  λ ctx filePath,
    match fs filePath with
    | OpenFails e =>
        (None, Some (WrapError ("failed to open coupon file " +:+ filePath) e))
    | GzipFails e =>
        (None, Some (WrapError ("failed to create gzip reader for " +:+ filePath) e))
    | Stream lines tail =>
        loadStream ctx lines tail ("error reading coupon file " +:+ filePath)
    end.

(** [s3Loader]: [client] answers [GetObject(bucket, key)]. *)
Record s3Loader := mkS3Loader {
  client : string → string → Source;
  bucket : string;
}.

Definition s3Loader_Load (l : s3Loader) : Loader :=
  λ ctx key,
    match client l (bucket l) key with
    | OpenFails e =>
        (None, Some (WrapError
           ("failed to get object from S3 (bucket=" +:+ bucket l +:+
            ", key=" +:+ key +:+ ")") e))
    | GzipFails e =>
        (None, Some (WrapError
           ("failed to create gzip reader for S3 object " +:+ key) e))
    | Stream lines tail =>
        loadStream ctx lines tail
          ("error reading coupon file from S3 " +:+ key)
    end.

End loaders.

(** [fallbackLoader]; a [nil] [s3Loader] field is [None]. *)
Record fallbackLoader := mkFallback {
  fb_s3Loader : option Loader;
  fb_fileLoader : Loader;
  s3Prefix : string;
  s3Enabled : bool;
}.

Definition NewFallbackLoader (s3 : option Loader) (file : Loader)
    (prefix : string) (enabled : bool) : fallbackLoader :=
  mkFallback s3 file prefix enabled.

(** A delegate call made by the fallback loader, with its argument. *)
Inductive LoadCall := CallS3 (key : string) | CallFile (path : string).

(** [fallbackLoader.Load], with the delegate calls it made, in order. *)
Definition fallbackLoader_Load_traced (l : fallbackLoader) (ctx : Context)
    (filePath : string) : LoadResult * list LoadCall :=
  match s3Enabled l, fb_s3Loader l with
  | true, Some s3 =>
      let s3Key := s3Prefix l +:+ filePath in
      match s3 ctx s3Key with
      | (set, None) => ((set, None), [CallS3 s3Key])
      | (_, Some _) =>
          (fb_fileLoader l ctx filePath, [CallS3 s3Key; CallFile filePath])
      end
  | _, _ => (fb_fileLoader l ctx filePath, [CallFile filePath])
  end.

Definition fallbackLoader_Load (l : fallbackLoader) : Loader :=
  λ ctx filePath, (fallbackLoader_Load_traced l ctx filePath).1.

(* =================================================================== *)
(** ** validator.go: construction *)
(* =================================================================== *)

(** [validator]; the Go struct has no field for the match threshold. *)
Record validator := mkValidator { couponSets : list CouponSet }.

Record ValidatorConfig := mkConfig {
  FilePaths : list string;
  MinMatchCount : Z;
}.

Definition DefaultValidatorConfig : ValidatorConfig :=
  mkConfig
    [ "data/coupons/couponbase1.gz";
      "data/coupons/couponbase2.gz";
      "data/coupons/couponbase3.gz" ]
    2.

(** The local [loadResult] struct and its zero value. *)
Record loadResult := mkLoadResult {
  index : nat;
  set : option CouponSet;
  err : option error;
}.
Definition zeroLoadResult : loadResult := mkLoadResult 0 None None.

(** How [NewValidator] ends: a validator, an error, or a run-time panic
    ([result.set.Size()] on a nil set). *)
Inductive Constructed :=
| Built (v : validator)
| Failed (e : error)
| Panicked.

(** What the goroutine of source [i] sends on [resultChan]. *)
Definition loadResultOf (ctx : Context) (loader : Loader) (i : nat)
    (path : string) : loadResult :=
  mkLoadResult i (loader ctx path).1 (loader ctx path).2.

Definition loadTask (ctx : Context) (loader : Loader) (paths : list string)
    (i : nat) : option loadResult :=
  path ← paths !! i;
  Some (loadResultOf ctx loader i path).

(** [for result := range resultChan { results[result.index] = result }]. *)
Definition collectResults (n : nat) (received : list loadResult)
    : list loadResult :=
  foldl (λ results result, <[index result := result]> results)
        (replicate n zeroLoadResult) received.

(** [for i, result := range results], from index [i] on, [sets] being
    [v.couponSets] so far. *)
Fixpoint populate (paths : list string) (i : nat) (results : list loadResult)
    (sets : list CouponSet) : Constructed :=
  match results with
  | [] => Built (mkValidator sets)
  | result :: rest =>
      match err result with
      | Some e =>
          match paths !! i with
          | Some path =>
              Failed (WrapError ("failed to load coupon file " +:+ path) e)
          | None => Panicked
          end
      | None =>
          match set result with
          | Some s => populate paths (S i) rest (sets ++ [s])
          | None => Panicked
          end
      end
  end.

(** The source list [NewValidator] works on: [config.FilePaths] after the
    [nil] configuration is replaced by the default one. *)
Definition configuredPaths (config : option ValidatorConfig) : list string :=
  FilePaths (default DefaultValidatorConfig config).

(** [NewValidator].  [arrival] is the order in which the load goroutines
    deliver: the main goroutine reads the channel only after [wg.Wait()],
    so a run is fixed by that order alone. *)
Definition NewValidator (ctx : Context) (config : option ValidatorConfig)
    (loader : Loader) (arrival : list nat) : Constructed :=
  let config := default DefaultValidatorConfig config in
  let paths := FilePaths config in
  let received := omap (loadTask ctx loader paths) arrival in
  populate paths 0 (collectResults (length paths) received) [].

(* =================================================================== *)
(** ** validator.go: Validate, countMatches, Close *)
(* =================================================================== *)

(** Where a lookup goroutine stands: before its first [select], holding
    [found] before its second [select], or returned. *)
Inductive worker_pc := WStart | WLooked (found : bool) | WExit.

(** The main goroutine of [countMatches]: blocked in the [select] of the
    [for] loop, or returned. *)
Inductive main_pc := MLoop (matches checked : nat) | MRet (matches : nat).

(** Which ready case a [select] takes. *)
Inductive worker_pick := SendResult | SeeDone | SeeCtx.
Inductive main_pick := RecvResult | MainSeeCtx.

(** A scheduler decision: who moves, and through which case. *)
Inductive action :=
| Worker (i : nat) (p : worker_pick)
| Main (p : main_pick).

Record cm_state := mkState {
  workers : list worker_pc;
  resultChan : list bool;     (* buffered, capacity len(v.couponSets) *)
  doneChan : bool;            (* closed by the deferred close *)
  mainpc : main_pc;
  clock : nat;                (* instants elapsed: one per action *)
  lookups : list nat;         (* sets on which Contains was called *)
}.

Section countMatches.
Variable v : validator.
Variable ctx : Context.
Variable promoCode : string.

(** [return matches], with the deferred [close(doneChan)]. *)
Definition ret (st : cm_state) (matches : nat) : cm_state :=
  mkState (workers st) (resultChan st) true (MRet matches)
          (clock st) (lookups st).

(** The loop test [checked < len(v.couponSets)], then either the next
    [select] or the final [return matches]. *)
Definition loopTest (st : cm_state) (matches checked : nat) : cm_state :=
  if bool_decide (checked < length (couponSets v))
  then mkState (workers st) (resultChan st) (doneChan st)
               (MLoop matches checked) (clock st) (lookups st)
  else ret st matches.

Definition setWorker (st : cm_state) (i : nat) (pc : worker_pc) : cm_state :=
  mkState (<[i := pc]> (workers st)) (resultChan st) (doneChan st)
          (mainpc st) (clock st) (lookups st).

(** One move of the goroutine started for [v.couponSets[i]]. *)
Definition workerStep (i : nat) (p : worker_pick) (st : cm_state) : cm_state :=
  match workers st !! i, couponSets v !! i with
  | Some WStart, Some s =>
      if doneChan st || Done ctx (clock st)
      then setWorker st i WExit
      else
        let found := Contains s promoCode in
        mkState (<[i := WLooked found]> (workers st)) (resultChan st)
                (doneChan st) (mainpc st) (clock st) (lookups st ++ [i])
  | Some (WLooked found), _ =>
      match p with
      | SendResult =>
          if bool_decide (length (resultChan st) < length (couponSets v))
          then mkState (<[i := WExit]> (workers st))
                       (resultChan st ++ [found]) (doneChan st)
                       (mainpc st) (clock st) (lookups st)
          else st
      | SeeDone => if doneChan st then setWorker st i WExit else st
      | SeeCtx => if Done ctx (clock st) then setWorker st i WExit else st
      end
  | _, _ => st
  end.

(** One move of the main goroutine: one [select] of the counting loop. *)
Definition mainStep (p : main_pick) (st : cm_state) : cm_state :=
  match mainpc st with
  | MRet _ => st
  | MLoop matches checked =>
      match p with
      | RecvResult =>
          match resultChan st with
          | [] => st
          | found :: rest =>
              let st := mkState (workers st) rest (doneChan st)
                                (mainpc st) (clock st) (lookups st) in
              let checked := S checked in
              let matches := if found then S matches else matches in
              if found && bool_decide (2 ≤ matches) then ret st matches
              else
                let remaining := length (couponSets v) - checked in
                if bool_decide (matches + remaining < 2) then ret st matches
                else loopTest st matches checked
          end
      | MainSeeCtx =>
          if Done ctx (clock st) then ret st matches else st
      end
  end.

Definition tick (st : cm_state) : cm_state :=
  mkState (workers st) (resultChan st) (doneChan st) (mainpc st)
          (S (clock st)) (lookups st).

(** An action that is not enabled leaves the goroutine blocked; the
    instant passes all the same. *)
Definition step (st : cm_state) (a : action) : cm_state :=
  tick match a with
       | Worker i p => workerStep i p st
       | Main p => mainStep p st
       end.

(** The state when the [for] loop is first reached: channels made, one
    goroutine launched per set, [matches := 0], [checked := 0]. *)
Definition launched : cm_state :=
  loopTest
    (mkState (replicate (length (couponSets v)) WStart) [] false
             (MLoop 0 0) 0 [])
    0 0.

Definition run (sched : list action) : cm_state := foldl step launched sched.

(** [countMatches] under schedule [sched]: [None] while the main
    goroutine is still blocked when the schedule ends. *)
Definition countMatches (sched : list action) : option nat :=
  match mainpc (run sched) with
  | MRet matches => Some matches
  | MLoop _ _ => None
  end.

End countMatches.

(** What a caller of [Validate] sees. *)
Inductive outcome :=
| Pending                          (* not returned yet *)
| Returned (e : option error).     (* the returned error, [None] for nil *)

(** [validator.Validate] under schedule [sched], with the indices of the
    sets it looked the code up in. *)
Definition Validate (v : validator) (ctx : Context) (promoCode : string)
    (sched : list action) : outcome * list nat :=
  if bool_decide (String.length promoCode < 8)
     || bool_decide (10 < String.length promoCode)
  then (Returned (Some ErrInvalidPromoLength), [])
  else
    let st := run v ctx promoCode sched in
    match mainpc st with
    | MLoop _ _ => (Pending, lookups st)
    | MRet matchCount =>
        if bool_decide (matchCount < 2)
        then (Returned (Some ErrInvalidPromoCode), lookups st)
        else (Returned None, lookups st)
    end.

(** [validator.Close]: the validator afterwards and the returned error. *)
Definition Close (v : validator) : validator * option error :=
  (mkValidator [], None).

(** A schedule that lets every goroutine finish: each lookup goroutine
    moves twice, then the main goroutine tries both cases of its [select]
    once per set. *)
Definition drainWorkers (n : nat) : list action :=
  flat_map (λ i, [Worker i SendResult; Worker i SendResult]) (seq 0 n).
Definition drainMain (n : nat) : list action :=
  mjoin (replicate n [Main RecvResult; Main MainSeeCtx]).
Definition drain (n : nat) : list action := drainWorkers n ++ drainMain n.

(* =================================================================== *)
(** ** Vocabulary of the statements about the counting protocol *)
(* =================================================================== *)

(** The number of sets that hold the code: what counting all N lookup
    results gives. *)
Definition totalMatches (v : validator) (promoCode : string) : nat :=
  length (filter (λ s, promoCode ∈ coupons s) (couponSets v)).

(** A goroutine that has not returned counts for one result to come. *)
Definition alive (w : worker_pc) : nat :=
  match w with WExit => 0 | _ => 1 end.
Definition unsent (ws : list worker_pc) : nat := sum_list (alive <$> ws).

Definition hit (b : bool) : nat := if b then 1 else 0.
Definition trues (results : list bool) : nat := sum_list (hit <$> results).

(** The matches the goroutines that have not returned may still report. *)
Definition owed (promoCode : string) (ws : list worker_pc)
    (sets : list CouponSet) : nat :=
  sum_list (zip_with (λ w s, alive w * hit (Contains s promoCode)) ws sets).

(** What every reachable state of [countMatches] satisfies: the channel
    never overflows, the counters stay within N, and as long as neither
    the context nor [doneChan] has fired no result is lost. *)
Definition wellFormed (v : validator) (ctx : Context) (st : cm_state) : Prop :=
  length (workers st) = length (couponSets v)
  ∧ length (resultChan st) + unsent (workers st) ≤ length (couponSets v)
  ∧ match mainpc st with
    | MLoop matches checked =>
        doneChan st = false
        ∧ matches ≤ checked
        ∧ checked < length (couponSets v)
        ∧ checked + length (resultChan st) + unsent (workers st)
          ≤ length (couponSets v)
        ∧ (Done ctx (clock st) = false →
           checked + length (resultChan st) + unsent (workers st)
           = length (couponSets v))
    | MRet matches => matches ≤ length (couponSets v)
    end.

(** What holds in addition under a context that never fires: every match
    is accounted for, received, in the channel or still owed. *)
Definition accounted (v : validator) (promoCode : string) (st : cm_state)
    : Prop :=
  (∀ i found, workers st !! i = Some (WLooked found) →
     ∃ s, couponSets v !! i = Some s ∧ found = Contains s promoCode)
  ∧ match mainpc st with
    | MLoop matches checked =>
        matches < 2
        ∧ matches + trues (resultChan st)
          + owed promoCode (workers st) (couponSets v)
          = totalMatches v promoCode
    | MRet matches => 2 ≤ matches ↔ 2 ≤ totalMatches v promoCode
    end.

(** What holds throughout under a context cancelled before the call: no
    lookup is made, nothing is sent, nothing is counted. *)
Definition idle (st : cm_state) : Prop :=
  Forall (λ w, w = WStart ∨ w = WExit) (workers st)
  ∧ resultChan st = []
  ∧ lookups st = []
  ∧ (mainpc st = MLoop 0 0 ∨ mainpc st = MRet 0).

(** Every lookup goroutine has returned. *)
Definition allReturned (st : cm_state) : Prop :=
  Forall (λ w, w = WExit) (workers st).

(** The iterations the counting loop may still make. *)
Definition toCheck (v : validator) (st : cm_state) : nat :=
  match mainpc st with
  | MLoop _ checked => length (couponSets v) - checked
  | MRet _ => 0
  end.

End coupon.


(* ===================================================================== *)
(** ** Go's strings.TrimSpace, and fixtures *)
(* ===================================================================== *)

Module strings.

(** The UTF-8 encodings of the code points with Unicode's White_Space
    property, which is what [unicode.IsSpace] accepts: the six ASCII ones
    first, then U+0085, U+00A0, U+1680, U+2000..U+200A, U+2028, U+2029,
    U+202F, U+205F, U+3000. *)
Definition spaceRunes : list (list nat) :=
  [ [9]; [10]; [11]; [12]; [13]; [32];
    [194; 133]; [194; 160]; [225; 154; 128];
    [226; 128; 128]; [226; 128; 129]; [226; 128; 130]; [226; 128; 131];
    [226; 128; 132]; [226; 128; 133]; [226; 128; 134]; [226; 128; 135];
    [226; 128; 136]; [226; 128; 137]; [226; 128; 138];
    [226; 128; 168]; [226; 128; 169]; [226; 128; 175];
    [226; 129; 159]; [227; 128; 128] ].

(** [Some rest] when [s] is [p] followed by [rest]. *)
Fixpoint stripPrefix (p s : list nat) : option (list nat) :=
  match p, s with
  | [], _ => Some s
  | a :: p', b :: s' => if bool_decide (a = b) then stripPrefix p' s' else None
  | _ :: _, [] => None
  end.

(** The input without its first rune, when that rune is a space. *)
Definition stripSpace (runes : list (list nat)) (s : list nat)
    : option (list nat) :=
  list_find is_Some ((λ r, stripPrefix r s) <$> runes) ≫= λ x, x.2.

Fixpoint trimLeft (runes : list (list nat)) (fuel : nat) (s : list nat)
    : list nat :=
  match fuel with
  | 0 => s
  | S fuel' =>
      match stripSpace runes s with
      | Some rest => trimLeft runes fuel' rest
      | None => s
      end
  end.

(** A model of Go's [strings.TrimSpace] (standard library): leading space
    runes go first, then trailing ones of what is left. *)
Definition TrimSpace (s : string) : string :=
  let bytes := nat_of_ascii <$> list_ascii_of_string s in
  let left := trimLeft spaceRunes (length bytes) bytes in
  let both :=
    reverse (trimLeft (reverse <$> spaceRunes) (length left) (reverse left)) in
  string_of_list_ascii (ascii_of_nat <$> both).

End strings.

Module fixtures.
Import model context coupon.

(** The three coupon files of [TestNewValidator_Success], as the scanner
    reads them; the second one carries blank lines and padding. *)
Definition file1 : list string := ["VALIDCODE1"; "VALIDCODE2"; "COMMON123"].
Definition file2 : list string :=
  ["  VALIDCODE2"; ""; "VALIDCODE3  "; "   "; "COMMON123"; "VALIDCODE2"].
Definition file3 : list string := ["VALIDCODE3"; "VALIDCODE4"].

Definition fs (path : string) : Source :=
  if bool_decide (path = "coupon1.gz") then Stream file1 None
  else if bool_decide (path = "coupon2.gz") then Stream file2 None
  else if bool_decide (path = "coupon3.gz") then Stream file3 None
  else if bool_decide (path = "notgzip.gz")
       then GzipFails (ExternalError "gzip: invalid header")
  else if bool_decide (path = "truncated.gz")
       then Stream ["VALIDCODE1"] (Some (ExternalError "unexpected EOF"))
  else OpenFails (ExternalError "no such file or directory").

Definition loader : Loader := fileLoader_Load strings.TrimSpace fs.

Definition set1 : CouponSet := mkSet {[ "VALIDCODE1"; "VALIDCODE2"; "COMMON123" ]}.
Definition set2 : CouponSet := mkSet {[ "VALIDCODE2"; "VALIDCODE3"; "COMMON123" ]}.
Definition set3 : CouponSet := mkSet {[ "VALIDCODE3"; "VALIDCODE4" ]}.

Definition threeSets : validator := mkValidator [set1; set2; set3].

Definition config (minMatch : Z) : ValidatorConfig :=
  mkConfig ["coupon1.gz"; "coupon2.gz"; "coupon3.gz"] minMatch.

(** A configuration whose second source does not exist. *)
Definition brokenConfig : ValidatorConfig :=
  mkConfig ["coupon1.gz"; "missing.gz"; "coupon3.gz"] 2.

(** A context cancelled before the call, and one whose deadline passes
    after the first instant. *)
Definition cancelled : Context := mkContext (Some 0) Canceled.
Definition expiring : Context := mkContext (Some 1) DeadlineExceeded.

(** An S3 bucket holding only the first file, under a prefix. *)
Definition s3 : s3Loader :=
  mkS3Loader
    (λ bucket key,
       if bool_decide (bucket = "kart" ∧ key = "prod/coupon1.gz")
       then Stream file1 None
       else OpenFails (ExternalError "NoSuchKey"))
    "kart".

Definition chain (enabled : bool) : fallbackLoader :=
  NewFallbackLoader (Some (s3Loader_Load strings.TrimSpace s3)) loader
    "prod/" enabled.

End fixtures.

(* ===================================================================== *)
(** ** Further vocabulary of the counting protocol *)
(* ===================================================================== *)

Module protocol.
Import model context coupon.

(** What every reachable state satisfies under any context: a result in
    flight is the true lookup result, and the count never runs ahead of the
    sets that hold the code, nor past 2. *)
Definition sound (v : validator) (promoCode : string) (st : cm_state) : Prop :=
  (∀ i found, workers st !! i = Some (WLooked found) →
     ∃ s, couponSets v !! i = Some s ∧ found = Contains s promoCode)
  ∧ match mainpc st with
    | MLoop matches _ =>
        matches < 2
        ∧ matches + trues (resultChan st)
          + owed promoCode (workers st) (couponSets v)
          ≤ totalMatches v promoCode
    | MRet matches => matches ≤ 2 ∧ matches ≤ totalMatches v promoCode
    end.

(** The lookup log holds each index once, and only indices of goroutines
    that are past their first [select]. *)
Definition lookedOnce (st : cm_state) : Prop :=
  NoDup (lookups st)
  ∧ ∀ i, i ∈ lookups st → workers st !! i ≠ Some WStart.

(** The file at [path] opens as a stream that has [code] among its trimmed
    non-empty lines. *)
Definition fileHolds (TrimSpace : string → string) (fs : string → Source)
    (path code : string) : Prop :=
  match fs path with
  | Stream lines _ => code ∈ trimmedLines TrimSpace lines
  | _ => False
  end.

#[global] Instance fileHolds_dec TrimSpace fs path code :
  Decision (fileHolds TrimSpace fs path code).
Proof. unfold fileHolds. destruct (fs path); apply _. Defined.

End protocol.

(* ===================================================================== *)
(** ** internal/model (orders), internal/service/order_service.go,
       internal/handler/order_handler.go *)
(* ===================================================================== *)

Module orders.
Import model.

(** [uuid.UUID], [time.Time] and [model.Product] are carried around and
    never inspected. *)
Section order_flow.
Context {UUID : Type} {Time : Type} {Product : Type}.

Definition ErrProductNotFound : error :=
  NewDomainError "PRODUCT_NOT_FOUND" "One or more products not found".
Definition ErrInvalidQuantity : error :=
  NewDomainError "INVALID_QUANTITY" "Quantity must be greater than zero".

(** [err.Error()]. *)
Fixpoint Error (e : error) : string :=
  match e with
  | DomainError _ message => message
  | ContextError Canceled => "context canceled"
  | ContextError DeadlineExceeded => "context deadline exceeded"
  | ExternalError msg => msg
  | WrapError msg cause => msg +:+ ": " +:+ Error cause
  end.

(** [strings.Contains(s, substr)], of Go's standard library. *)
Fixpoint stringsContains (s substr : string) : bool :=
  String.prefix substr s
  || match s with
     | EmptyString => false
     | String _ rest => stringsContains rest substr
     end.

Record OrderItemRequest := mkItemRequest {
  req_ProductID : string;
  req_Quantity : Z;
}.

Record OrderRequest := mkOrderRequest {
  req_CouponCode : option string;     (* *string, [None] for nil *)
  req_Items : list OrderItemRequest;
}.

Record Order := mkOrder {
  order_ID : UUID;
  order_CouponCode : option string;
  order_CreatedAt : Time;
  order_UpdatedAt : Time;
}.

Record OrderItem := mkOrderItem {
  item_ID : UUID;
  item_OrderID : UUID;
  item_ProductID : string;
  item_Quantity : Z;
}.

Record OrderResponse := mkOrderResponse {
  resp_ID : UUID;
  resp_Items : list OrderItem;
  resp_Products : list Product;
}.

(** The [for i, item := range req.Items] loop of [validateOrderRequest],
    from index [i] on. *)
Fixpoint validateItems (i : nat) (items : list OrderItemRequest)
    : option error :=
  match items with
  | [] => None
  | item :: rest =>
      if bool_decide (req_ProductID item = "")
      then Some (ExternalError
                   ("item " +:+ pretty i +:+ ": product ID is required"))
      else if bool_decide (req_Quantity item ≤ 0)%Z
      then Some ErrInvalidQuantity
      else validateItems (S i) rest
  end.

(** [orderService.validateOrderRequest]; a nil request is [None]. *)
Definition validateOrderRequest (req : option OrderRequest) : option error :=
  match req with
  | None => Some (ExternalError "order request is nil")
  | Some req =>
      if bool_decide (length (req_Items req) = 0)
      then Some (ExternalError "order must contain at least one item")
      else validateItems 0 (req_Items req)
  end.

(** A call [CreateOrder] makes on one of its collaborators. *)
Inductive call :=
| CallValidate (code : string)
| CallValidateProductsExist (ids : list string)
| CallBeginTx
| CallCreateOrder (order : Order)
| CallCreateOrderItems (items : list OrderItem)
| CallCommit
| CallRollback
| CallGetByIDs (ids : list string).

(** What the collaborators of [orderService] answer: the validator, the
    two repositories, the transaction, and the sources of fresh values
    ([newUUID k] is the result of the k-th [uuid.New()] of the call). *)
Record collaborators := mkCollaborators {
  validate : string → option error;
  ValidateProductsExist : list string → option error;
  BeginTx : option error;
  repoCreateOrder : Order → option error;
  repoCreateOrderItems : list OrderItem → option error;
  Commit : option error;
  Rollback : option error;
  GetByIDs : list string → list Product * option error;
  newUUID : nat → UUID;
  now : Time;
}.

(** [orderItems[i] = model.OrderItem{...}] for every requested item. *)
Definition makeOrderItems (c : collaborators) (orderID : UUID)
    (items : list OrderItemRequest) : list OrderItem :=
  imap (λ i item, mkOrderItem (newUUID c (S i)) orderID
                    (req_ProductID item) (req_Quantity item)) items.

(** The part of [CreateOrder] that runs inside the transaction; the second
    component is the calls made, the deferred rollback last. *)
Definition createInTx (c : collaborators) (req : OrderRequest)
    (productIDs : list string)
    : (option OrderResponse * option error) * list call :=
  let order := mkOrder (newUUID c 0) (req_CouponCode req) (now c) (now c) in
  match repoCreateOrder c order with
  | Some e =>
      ((None, Some (WrapError "failed to create order" e)),
       [CallCreateOrder order; CallRollback])
  | None =>
      let orderItems := makeOrderItems c (order_ID order) (req_Items req) in
      match repoCreateOrderItems c orderItems with
      | Some e =>
          ((None, Some (WrapError "failed to create order items" e)),
           [CallCreateOrder order; CallCreateOrderItems orderItems;
            CallRollback])
      | None =>
          match Commit c with
          | Some e =>
              ((None, Some (WrapError "failed to create order" e)),
               [CallCreateOrder order; CallCreateOrderItems orderItems;
                CallCommit; CallRollback])
          | None =>
              match GetByIDs c productIDs with
              | (_, Some e) =>
                  ((None,
                    Some (WrapError "failed to retrieve product details" e)),
                   [CallCreateOrder order; CallCreateOrderItems orderItems;
                    CallCommit; CallGetByIDs productIDs; CallRollback])
              | (products, None) =>
                  ((Some (mkOrderResponse (order_ID order) orderItems products),
                    None),
                   [CallCreateOrder order; CallCreateOrderItems orderItems;
                    CallCommit; CallGetByIDs productIDs])
              end
          end
      end
  end.

(** The part of [CreateOrder] after the coupon check. *)
Definition createChecked (c : collaborators) (req : OrderRequest)
    : (option OrderResponse * option error) * list call :=
  let productIDs := req_ProductID <$> req_Items req in
  match ValidateProductsExist c productIDs with
  | Some e => ((None, Some e), [CallValidateProductsExist productIDs])
  | None =>
      match BeginTx c with
      | Some e =>
          ((None, Some (WrapError "failed to create order" e)),
           [CallValidateProductsExist productIDs; CallBeginTx])
      | None =>
          let '(result, calls) := createInTx c req productIDs in
          (result,
           CallValidateProductsExist productIDs :: CallBeginTx :: calls)
      end
  end.

(** [orderService.CreateOrder]: the returned pair and the calls made on the
    collaborators, in order. *)
Definition CreateOrder (c : collaborators) (req : option OrderRequest)
    : (option OrderResponse * option error) * list call :=
  match validateOrderRequest req, req with
  | Some e, _ => ((None, Some e), [])
  | None, None => ((None, None), [])
  | None, Some req =>
      match req_CouponCode req with
      | Some code =>
          if bool_decide (code ≠ "")
          then
            match validate c code with
            | Some e => ((None, Some e), [CallValidate code])
            | None =>
                let '(result, calls) := createChecked c req in
                (result, CallValidate code :: calls)
            end
          else createChecked c req
      | None => createChecked c req
      end
  end.

(** The status and message [OrderHandler.Create] picks for an error of
    [CreateOrder]. *)
Definition createErrorStatus (err : error) : nat * string :=
  if bool_decide (err = ErrInvalidPromoCode) then (400, "invalid promo code")
  else if bool_decide (err = ErrProductNotFound)
  then (400, "one or more products not found")
  else if bool_decide (err = ErrInvalidQuantity) then (400, "invalid quantity")
  else if stringsContains (Error err) "required"
          || stringsContains (Error err) "must contain"
          || stringsContains (Error err) "nil"
  then (400, Error err)
  else (500, "failed to create order").

(** [OrderHandler.Create]: [body] is what [json.Decode] gives, [None] when
    it fails.  The result is the status written with either the error
    message or the order (a nil order with a nil error, which [CreateOrder]
    never returns, would be encoded as [null]). *)
Definition Create (c : collaborators) (method : string)
    (body : option OrderRequest)
    : (nat * (string + OrderResponse)) * list call :=
  if bool_decide (method ≠ "POST")
  then ((405, inl "method not allowed"), [])
  else
    match body with
    | None => ((400, inl "invalid request body"), [])
    | Some req =>
        match CreateOrder c (Some req) with
        | ((_, Some err), calls) =>
            let '(status, message) := createErrorStatus err in
            ((status, inl message), calls)
        | ((Some order, None), calls) => ((201, inr order), calls)
        | ((None, None), calls) => ((201, inl "null"), calls)
        end
    end.

End order_flow.

End orders.

Module order_fixtures.
Import model orders.

(** Collaborators for which everything succeeds: the validator accepts
    COMMON123 only, identifiers are numbers, products are their ids. *)
Definition healthy : @collaborators nat nat string :=
  mkCollaborators
    (λ code, if bool_decide (code = "COMMON123") then None
             else Some ErrInvalidPromoCode)
    (λ _, None) None (λ _, None) (λ _, None) None None
    (λ ids, (ids, None)) (λ k, 100 + k) 0.

(** The same, with the product lookup that follows the commit failing. *)
Definition detailsDown : @collaborators nat nat string :=
  mkCollaborators
    (validate healthy) (λ _, None) None (λ _, None) (λ _, None) None None
    (λ _, ([], Some (ExternalError "connection reset"))) (λ k, 100 + k) 0.

(** A validator that finds every code too short or too long. *)
Definition strict : @collaborators nat nat string :=
  mkCollaborators
    (λ _, Some ErrInvalidPromoLength) (λ _, None) None (λ _, None)
    (λ _, None) None None (λ ids, (ids, None)) (λ k, 100 + k) 0.

Definition request (code : option string) : OrderRequest :=
  mkOrderRequest code [mkItemRequest "1" 2; mkItemRequest "7" 1].

Definition badRequest : OrderRequest :=
  mkOrderRequest None [mkItemRequest "1" 2; mkItemRequest "" 1].

End order_fixtures.

(* ===================================================================== *)
(** ** Characters of a code *)
(* ===================================================================== *)

Module utf8.
Import coupon.

(** A UTF-8 continuation byte, [10xxxxxx]. *)
Definition isContinuation (b : ascii) : bool :=
  bool_decide (128 ≤ nat_of_ascii b ∧ nat_of_ascii b < 192).

(** The number of characters (code points) of a well-formed UTF-8 string,
    which is what Go's [utf8.RuneCountInString] returns for it: every byte
    that is not a continuation byte starts one. *)
Fixpoint RuneCountInString (s : string) : nat :=
  match s with
  | EmptyString => 0
  | String b rest =>
      (if isContinuation b then 0 else 1) + RuneCountInString rest
  end.

(** Two sets that both hold a code of five accented letters. *)
Definition accentedSets : validator :=
  mkValidator [mkSet {[ "ééééé" ]}; mkSet {[ "ééééé"; "VALIDCODE1" ]}].

End utf8.

(* ===================================================================== *)
(** * Properties *)
(* ===================================================================== *)

Import model context coupon.

(** ** Membership sets *)

Lemma Contains_elem (s : CouponSet) (code : string) :
  Contains s code = true ↔ code ∈ coupons s.
Proof. unfold Contains. apply bool_decide_eq_true. Qed.

Lemma Add_idempotent (s : CouponSet) (code : string) :
  Contains s code = true → Size (Add s code) = Size s.
Proof.
  rewrite Contains_elem. intros Hin. unfold Size, Add. simpl.
  f_equal. set_solver.
Qed.

Lemma list_to_set_remove_dups_gset (l : list string) :
  list_to_set (C := gset string) (remove_dups l) = list_to_set l.
Proof. apply set_eq. intros x. rewrite !elem_of_list_to_set. apply elem_of_remove_dups. Qed.

(** ** Loaders *)

Section loader_facts.
Variable TrimSpace : string → string.

Lemma Done_mono ctx t : Done ctx t = true → Done ctx (S t) = true.
Proof.
  unfold Done. destruct (deadline ctx); [|done].
  rewrite !bool_decide_eq_true. lia.
Qed.

Lemma Done_never ctx t : deadline ctx = None → Done ctx t = false.
Proof. unfold Done. by intros ->. Qed.

Lemma trimmedLines_cons text rest :
  trimmedLines TrimSpace (text :: rest) =
    if bool_decide (TrimSpace text ≠ "")
    then TrimSpace text :: trimmedLines TrimSpace rest
    else trimmedLines TrimSpace rest.
Proof.
  unfold trimmedLines. rewrite fmap_cons.
  case_bool_decide as Hne.
  - rewrite filter_cons_True; done.
  - rewrite filter_cons_False; [done|]. intros Hne'. exact (Hne' Hne).
Qed.

(** A loop that runs to the end has added exactly the trimmed non-empty
    lines to the set it started from. *)
Lemma scanLoop_inl ctx lines : ∀ t lineCount set s,
  scanLoop TrimSpace ctx lines t lineCount set = inl s →
  coupons s = list_to_set (trimmedLines TrimSpace lines) ∪ coupons set.
Proof.
  induction lines as [|text rest IH]; intros t lineCount set s; simpl.
  - intros [= <-]. set_solver.
  - destruct (bool_decide (Z.rem lineCount 1000000 = 0%Z) && Done ctx t);
      [done|].
    rewrite trimmedLines_cons.
    case_bool_decide as Hne; intros Hloop; apply IH in Hloop; rewrite Hloop.
    + simpl. set_solver.
    + done.
Qed.

(** Without a cancellation the loop always runs to the end. *)
Lemma scanLoop_never ctx lines : ∀ t lineCount set,
  deadline ctx = None →
  ∃ s, scanLoop TrimSpace ctx lines t lineCount set = inl s.
Proof.
  induction lines as [|text rest IH]; intros t lineCount set Hnever; simpl.
  - eauto.
  - rewrite Done_never, andb_false_r by done.
    case_bool_decide; eauto.
Qed.

(** A poll that finds the context done ends the loop with [ctx.Err()]. *)
Lemma scanLoop_cancelled ctx lines : ∀ t lineCount set k,
  k < length lines →
  Done ctx (t + k) = true →
  Z.rem (lineCount + Z.of_nat (length (trimmedLines TrimSpace (take k lines))))
        1000000 = 0%Z →
  scanLoop TrimSpace ctx lines t lineCount set = inr (Err ctx).
Proof.
  induction lines as [|text rest IH]; intros t lineCount set k Hk Hdone Hpoll;
    simpl in *; [lia|].
  destruct (bool_decide (Z.rem lineCount 1000000 = 0%Z) && Done ctx t) eqn:Hnow;
    [done|].
  destruct k as [|k].
  - exfalso. simpl in Hpoll. rewrite Z.add_0_r in Hpoll.
    rewrite Nat.add_0_r in Hdone.
    rewrite Hdone, bool_decide_eq_true_2 in Hnow by done. done.
  - simpl in Hpoll. rewrite trimmedLines_cons in Hpoll.
    replace (t + S k) with (S t + k) in Hdone by lia.
    destruct (bool_decide (TrimSpace text ≠ "")).
    + apply (IH _ _ _ k); [lia|done|].
      rewrite <- Hpoll. f_equal. simpl length. lia.
    + apply (IH _ _ _ k); [lia|done|done].
Qed.

Lemma loadStream_set ctx lines tail wrap s e :
  loadStream TrimSpace ctx lines tail wrap = (Some s, e) →
  coupons s = list_to_set (trimmedLines TrimSpace lines) ∧ e = None ∧ tail = None.
Proof.
  unfold loadStream.
  destruct (scanLoop _ _ _ _ _ _) as [set|] eqn:Hloop; [|done].
  destruct tail; [done|]. intros [= <- <-].
  apply scanLoop_inl in Hloop. rewrite Hloop. split; [|done].
  unfold NewMapCouponSet. simpl. set_solver.
Qed.

Lemma loadStream_never ctx lines wrap :
  deadline ctx = None →
  ∃ s, loadStream TrimSpace ctx lines None wrap = (Some s, None).
Proof.
  intros Hnever. unfold loadStream.
  destruct (scanLoop_never ctx lines 0 0%Z (NewMapCouponSet 100000000) Hnever)
    as [s ->].
  eauto.
Qed.

Lemma loadStream_error ctx lines tail wrap set e :
  loadStream TrimSpace ctx lines tail wrap = (set, Some e) → set = None.
Proof.
  unfold loadStream.
  destruct (scanLoop _ _ _ _ _ _); [destruct tail|]; by intros [= <-].
Qed.

Lemma loadStream_cancelled ctx lines tail wrap t :
  t < length lines → Done ctx t = true → polls TrimSpace lines t →
  loadStream TrimSpace ctx lines tail wrap = (None, Some (Err ctx)).
Proof.
  intros Ht Hdone Hpoll. unfold loadStream.
  by rewrite (scanLoop_cancelled ctx lines 0 0%Z _ t).
Qed.

End loader_facts.

Lemma elem_of_trimmedLines (TrimSpace : string → string) lines code :
  code ∈ trimmedLines TrimSpace lines ↔
  code ≠ "" ∧ ∃ line, line ∈ lines ∧ TrimSpace line = code.
Proof.
  unfold trimmedLines. rewrite list_elem_of_filter, list_elem_of_fmap.
  naive_solver.
Qed.

(** C5 — Whenever [fileLoader.Load] returns a set for a stream, that set is
    exactly the set of the stream's lines after trimming, the empty ones
    left out and each kept line stored as trimmed: a code is in the set iff
    it is non-empty and is the trimmed form of some line, and the size is the
    number of distinct such codes.  A stream that ends without an error,
    read under a context that never fires, does give a set. *)
Theorem fileLoader_Load_trimmed_set (TrimSpace : string → string)
    (fs : string → Source) (ctx : Context) (filePath : string)
    (lines : list string) (tail : option error) :
  fs filePath = Stream lines tail →
  (∀ s e, fileLoader_Load TrimSpace fs ctx filePath = (Some s, e) →
     coupons s = list_to_set (trimmedLines TrimSpace lines)
     ∧ (∀ code, Contains s code = true ↔
                code ≠ "" ∧ ∃ line, line ∈ lines ∧ TrimSpace line = code)
     ∧ Size s = length (remove_dups (trimmedLines TrimSpace lines)))
  ∧ (tail = None → deadline ctx = None →
     ∃ s, fileLoader_Load TrimSpace fs ctx filePath = (Some s, None)).
Proof.
  intros Hfs. unfold fileLoader_Load. rewrite Hfs. split.
  - intros s e Hload. apply loadStream_set in Hload as (Hs & _ & _).
    split; [done|]. split.
    + intros code. rewrite Contains_elem, Hs, elem_of_list_to_set.
      apply elem_of_trimmedLines.
    + unfold Size. rewrite Hs, <- list_to_set_remove_dups_gset.
      apply size_list_to_set, NoDup_remove_dups.
  - intros -> Hnever. by apply loadStream_never.
Qed.

Lemma fileLoader_Load_trimmed_set_witness :
  fixtures.fs "coupon2.gz" = Stream fixtures.file2 None
  ∧ fixtures.loader Background "coupon2.gz" = (Some fixtures.set2, None)
  ∧ coupons fixtures.set2
      = list_to_set (trimmedLines strings.TrimSpace fixtures.file2)
  ∧ (∀ code, Contains fixtures.set2 code = true ↔
             code ≠ "" ∧
             ∃ line, line ∈ fixtures.file2 ∧ strings.TrimSpace line = code)
  ∧ Size fixtures.set2
      = length (remove_dups (trimmedLines strings.TrimSpace fixtures.file2)).
Proof.
  split; [reflexivity|]. split; [reflexivity|].
  apply (proj1 (fileLoader_Load_trimmed_set strings.TrimSpace fixtures.fs
                  Background "coupon2.gz" fixtures.file2 None eq_refl)
           fixtures.set2 None).
  reflexivity.
Defined.

(** The second fixture file, with its padding, blank lines and repeated
    code, loads as the three distinct trimmed codes. *)
Example fileLoader_Load_file2 :
  fixtures.loader Background "coupon2.gz" = (Some fixtures.set2, None)
  ∧ Size fixtures.set2 = 3.
Proof. split; reflexivity. Qed.

(** C6, as stated, fails: the context of this load fires at instant 1,
    while the first of three lines is being handled; the loop polls the
    context only before a line when the count of added lines is a multiple
    of 1,000,000, so the load goes on and returns the whole set with a nil
    error instead of a cancellation error. *)
Lemma Load_cancel_between_polls :
  Done fixtures.expiring 0 = false
  ∧ Done fixtures.expiring 1 = true
  ∧ 1 < length fixtures.file1
  ∧ fixtures.fs "coupon1.gz" = Stream fixtures.file1 None
  ∧ fixtures.loader fixtures.expiring "coupon1.gz" = (Some fixtures.set1, None)
  ∧ fixtures.loader fixtures.expiring "coupon1.gz"
      ≠ (None, Some (Err fixtures.expiring)).
Proof. repeat split; try reflexivity; [vm_compute; lia | discriminate]. Qed.

(** C6, amended — Every error of [fileLoader.Load] and of [s3Loader.Load]
    is terminal: a non-nil error never comes with a set.  A cancellation is
    reported when a poll observes it: if the context is done at an iteration
    before which the number of added lines is a multiple of 1,000,000, the
    load returns [ctx.Err()] and no set. *)
Theorem Load_errors_are_terminal (TrimSpace : string → string) :
  (∀ fs ctx filePath set e,
     fileLoader_Load TrimSpace fs ctx filePath = (set, Some e) → set = None)
  ∧ (∀ l ctx key set e,
     s3Loader_Load TrimSpace l ctx key = (set, Some e) → set = None)
  ∧ (∀ fs ctx filePath lines tail t,
     fs filePath = Stream lines tail →
     t < length lines → polls TrimSpace lines t → Done ctx t = true →
     fileLoader_Load TrimSpace fs ctx filePath = (None, Some (Err ctx)))
  ∧ (∀ l ctx key lines tail t,
     client l (bucket l) key = Stream lines tail →
     t < length lines → polls TrimSpace lines t → Done ctx t = true →
     s3Loader_Load TrimSpace l ctx key = (None, Some (Err ctx))).
Proof.
  repeat split.
  - intros fs ctx filePath set e. unfold fileLoader_Load.
    destruct (fs filePath); [by intros [= <-]..|apply loadStream_error].
  - intros l ctx key set e. unfold s3Loader_Load.
    destruct (client l (bucket l) key); [by intros [= <-]..|apply loadStream_error].
  - intros fs ctx filePath lines tail t Hfs Ht Hpoll Hdone.
    unfold fileLoader_Load. rewrite Hfs. by eapply loadStream_cancelled.
  - intros l ctx key lines tail t Hsrc Ht Hpoll Hdone.
    unfold s3Loader_Load. rewrite Hsrc. by eapply loadStream_cancelled.
Qed.

Lemma Load_errors_are_terminal_witness :
  (fixtures.loader Background "truncated.gz").1 = None
  ∧ (s3Loader_Load strings.TrimSpace fixtures.s3 Background "prod/coupon9.gz").1
      = None
  ∧ fixtures.loader fixtures.cancelled "coupon1.gz"
      = (None, Some (Err fixtures.cancelled))
  ∧ s3Loader_Load strings.TrimSpace fixtures.s3 fixtures.cancelled "prod/coupon1.gz"
      = (None, Some (Err fixtures.cancelled)).
Proof.
  pose proof (Load_errors_are_terminal strings.TrimSpace) as (Hf & Hs & Hfc & Hsc).
  split; [|split; [|split]].
  - apply (Hf fixtures.fs Background "truncated.gz" _
             (WrapError "error reading coupon file truncated.gz"
                        (ExternalError "unexpected EOF"))).
    reflexivity.
  - apply (Hs fixtures.s3 Background "prod/coupon9.gz" _
             (WrapError
                "failed to get object from S3 (bucket=kart, key=prod/coupon9.gz)"
                (ExternalError "NoSuchKey"))).
    reflexivity.
  - apply (Hfc fixtures.fs fixtures.cancelled "coupon1.gz" fixtures.file1 None 0);
      [reflexivity | simpl; lia | reflexivity | reflexivity].
  - apply (Hsc fixtures.s3 fixtures.cancelled "prod/coupon1.gz" fixtures.file1 None 0);
      [reflexivity | simpl; lia | reflexivity | reflexivity].
Defined.

(** ** Fallback chain *)

(** C7 — In [fallbackLoader.Load], when the S3 loader is enabled and its
    load of [s3Prefix + filePath] fails, the file loader is called next with
    the original [filePath] and its result is the result, so when both fail
    the error is the file loader's; when S3 is disabled only the file loader
    is called. *)
Theorem fallbackLoader_Load_chain (l : fallbackLoader) (ctx : Context)
    (filePath : string) :
  (∀ s3 set e,
     s3Enabled l = true → fb_s3Loader l = Some s3 →
     s3 ctx (s3Prefix l +:+ filePath) = (set, Some e) →
     fallbackLoader_Load_traced l ctx filePath
       = (fb_fileLoader l ctx filePath,
          [CallS3 (s3Prefix l +:+ filePath); CallFile filePath])
     ∧ ∀ e2, (fb_fileLoader l ctx filePath).2 = Some e2 →
             (fallbackLoader_Load l ctx filePath).2 = Some e2)
  ∧ (s3Enabled l = false →
     fallbackLoader_Load_traced l ctx filePath
       = (fb_fileLoader l ctx filePath, [CallFile filePath])).
Proof.
  split.
  - intros s3 set e Hen Hs3 Hfail.
    assert (fallbackLoader_Load_traced l ctx filePath
            = (fb_fileLoader l ctx filePath,
               [CallS3 (s3Prefix l +:+ filePath); CallFile filePath])) as Htr.
    { unfold fallbackLoader_Load_traced. by rewrite Hen, Hs3, Hfail. }
    split; [done|]. intros e2 He2.
    unfold fallbackLoader_Load. by rewrite Htr.
  - intros Hoff. unfold fallbackLoader_Load_traced. by rewrite Hoff.
Qed.

Lemma fallbackLoader_Load_chain_witness :
  (fallbackLoader_Load_traced (fixtures.chain true) Background "missing.gz"
     = (fixtures.loader Background "missing.gz",
        [CallS3 "prod/missing.gz"; CallFile "missing.gz"])
   ∧ (fallbackLoader_Load (fixtures.chain true) Background "missing.gz").2
       = Some (WrapError "failed to open coupon file missing.gz"
                         (ExternalError "no such file or directory")))
  ∧ fallbackLoader_Load_traced (fixtures.chain false) Background "coupon1.gz"
      = (fixtures.loader Background "coupon1.gz", [CallFile "coupon1.gz"]).
Proof.
  split.
  - destruct (proj1 (fallbackLoader_Load_chain (fixtures.chain true) Background
                       "missing.gz")
                (s3Loader_Load strings.TrimSpace fixtures.s3) None
                (WrapError
                   "failed to get object from S3 (bucket=kart, key=prod/missing.gz)"
                   (ExternalError "NoSuchKey"))
                eq_refl eq_refl eq_refl) as [Htrace Herr].
    split; [exact Htrace|]. apply Herr. reflexivity.
  - apply (proj2 (fallbackLoader_Load_chain (fixtures.chain false) Background
                    "coupon1.gz")).
    reflexivity.
Defined.

(** Both delegates failing: the error that comes back is the one of the
    local file, not the S3 one. *)
Example fallbackLoader_Load_both_fail :
  (fallbackLoader_Load (fixtures.chain true) Background "missing.gz").2
  = Some (WrapError "failed to open coupon file missing.gz"
                    (ExternalError "no such file or directory")).
Proof. reflexivity. Qed.

(** ** Construction *)

Section construction_facts.
Variable ctx : Context.
Variable loader : Loader.
Variable paths : list string.

Local Abbreviation sent := (loadResultOf ctx loader).

Lemma loadTask_Some i path :
  paths !! i = Some path → loadTask ctx loader paths i = Some (sent i path).
Proof. unfold loadTask. by intros ->. Qed.

(** Writing each received result at its own index. *)
Lemma collect_lookup (f : nat → loadResult) (received : list loadResult) :
  ∀ results i,
    (∀ r, r ∈ received → index r < length results ∧ f (index r) = r) →
    foldl (λ results result, <[index result := result]> results)
          results received !! i
    = if bool_decide (i ∈ index <$> received) then Some (f i)
      else results !! i.
Proof.
  induction received as [|r rest IH]; intros results i Hall.
  - simpl foldl. rewrite bool_decide_eq_false_2; [done|]. set_solver.
  - destruct (Hall r) as [Hlt Hf]; [set_solver|].
    simpl foldl. rewrite fmap_cons.
    rewrite IH; last first.
    { intros r' Hr'. rewrite length_insert. apply Hall. set_solver. }
    destruct (decide (i ∈ index <$> rest)) as [Hin|Hout].
    + rewrite !bool_decide_eq_true_2; [done|set_solver|done].
    + rewrite (bool_decide_eq_false_2 _ Hout).
      destruct (decide (i = index r)) as [->|Hne].
      * rewrite bool_decide_eq_true_2 by set_solver.
        by rewrite list_lookup_insert_eq, Hf.
      * rewrite bool_decide_eq_false_2 by set_solver.
        by rewrite list_lookup_insert_ne.
Qed.

Lemma received_index (arrival : list nat) :
  Forall (λ i, i < length paths) arrival →
  index <$> omap (loadTask ctx loader paths) arrival = arrival.
Proof.
  induction 1 as [|i rest Hi _ IH]; [done|].
  apply lookup_lt_is_Some in Hi as [path Hpath].
  cbn. rewrite (loadTask_Some i path Hpath). cbn. f_equal. exact IH.
Qed.

Lemma received_elem (arrival : list nat) r :
  r ∈ omap (loadTask ctx loader paths) arrival →
  ∃ path, paths !! index r = Some path ∧ r = sent (index r) path.
Proof.
  rewrite list_elem_of_omap. intros (i & _ & Hr).
  unfold loadTask in Hr. destruct (paths !! i) as [path|] eqn:Hpath; [|done].
  simpl in Hr. injection Hr as <-. simpl. eauto.
Qed.

(** Whatever the order of arrival, slot [i] ends up holding the result of
    the load of [paths[i]]. *)
Lemma collectResults_ordered (arrival : list nat) :
  arrival ≡ₚ seq 0 (length paths) →
  collectResults (length paths) (omap (loadTask ctx loader paths) arrival)
  = imap sent paths.
Proof.
  intros Hperm.
  assert (Forall (λ i, i < length paths) arrival) as Hlt.
  { apply Forall_forall. intros i Hi. rewrite Hperm in Hi.
    apply elem_of_seq in Hi. lia. }
  apply list_eq. intros i. unfold collectResults.
  rewrite (collect_lookup
             (λ i, default zeroLoadResult (sent i <$> paths !! i))).
  - rewrite received_index by done. rewrite list_lookup_imap.
    destruct (paths !! i) as [path|] eqn:Hpath; simpl.
    + rewrite bool_decide_eq_true_2; [done|].
      rewrite Hperm. apply elem_of_seq. apply lookup_lt_Some in Hpath. lia.
    + rewrite bool_decide_eq_false_2.
      * apply lookup_replicate_None. apply lookup_ge_None in Hpath. lia.
      * rewrite Hperm. intros Hin%elem_of_seq.
        apply lookup_ge_None in Hpath. lia.
  - intros r Hr. apply received_elem in Hr as (path & Hpath & Hr).
    rewrite length_replicate. split; [by eapply lookup_lt_Some|].
    rewrite Hpath. simpl. done.
Qed.

(** The in-order pass over the collected results. *)
Lemma populate_ordered (suffix : list string) :
  ∀ before sets, paths = (before ++ suffix)%list →
    match populate paths (length before)
            (imap (λ j, sent (length before + j)) suffix) sets with
    | Built v =>
        ∃ new, couponSets v = (sets ++ new)%list
               ∧ Forall2 (λ path s, loader ctx path = (Some s, None)) suffix new
    | Failed e' =>
        ∃ path e, path ∈ suffix ∧ (loader ctx path).2 = Some e
                  ∧ e' = WrapError ("failed to load coupon file " +:+ path) e
    | Panicked => ∃ path, path ∈ suffix ∧ loader ctx path = (None, None)
    end.
Proof.
  induction suffix as [|path rest IH]; intros before sets Hpaths; simpl.
  - exists []. by rewrite app_nil_r.
  - destruct (loader ctx path) as [set e] eqn:Hload. simpl.
    destruct e as [e|].
    + assert (paths !! length before = Some path) as ->.
      { rewrite Hpaths. by rewrite list_lookup_middle. }
      exists path, e. rewrite Hload. set_solver.
    + destruct set as [s|].
      * specialize (IH (before ++ [path])%list (sets ++ [s])%list).
        rewrite length_app in IH. simpl in IH.
        replace (length before + 1) with (S (length before)) in IH by lia.
        rewrite (imap_ext _ (λ j, sent (S (length before) + j))); last first.
        { intros j q _. simpl. f_equal. lia. }
        destruct (populate _ _ _ _) as [v|e'|].
        -- destruct IH as (new & Hv & Hall); [by rewrite <- app_assoc|].
           exists (s :: new). rewrite Hv, <- app_assoc. split; [done|].
           by constructor.
        -- destruct IH as (q & e & Hq & He & ->); [by rewrite <- app_assoc|].
           exists q, e. set_solver.
        -- destruct IH as (q & Hq & Hnil); [by rewrite <- app_assoc|].
           exists q. set_solver.
      * exists path. set_solver.
Qed.

End construction_facts.

(** C4 — [NewValidator], whatever the order in which the loads complete,
    returns a validator only if every configured source loaded: its set list
    then has one set per source, the one loaded from the source at the same
    index.  If some load fails no validator is returned, and the result is an
    error that wraps the failing load's error under the failing source's
    path (a loader that breaks Go's convention by returning a nil set with a
    nil error would make the constructor panic instead; the repository's
    loaders never do). *)
Theorem NewValidator_fail_fast (ctx : Context) (config : option ValidatorConfig)
    (loader : Loader) (arrival : list nat) :
  arrival ≡ₚ seq 0 (length (configuredPaths config)) →
  match NewValidator ctx config loader arrival with
  | Built v =>
      Forall2 (λ path s, loader ctx path = (Some s, None))
              (configuredPaths config) (couponSets v)
  | Failed e' =>
      ∃ path e, path ∈ configuredPaths config
                ∧ (loader ctx path).2 = Some e
                ∧ e' = WrapError ("failed to load coupon file " +:+ path) e
  | Panicked =>
      ∃ path, path ∈ configuredPaths config ∧ loader ctx path = (None, None)
  end
  ∧ ((∃ path, path ∈ configuredPaths config ∧ (loader ctx path).2 ≠ None) →
     (∀ path, path ∈ configuredPaths config → loader ctx path ≠ (None, None)) →
     ∃ path e, path ∈ configuredPaths config
               ∧ (loader ctx path).2 = Some e
               ∧ NewValidator ctx config loader arrival
                 = Failed (WrapError ("failed to load coupon file " +:+ path) e)).
Proof.
  intros Hperm.
  assert (match NewValidator ctx config loader arrival with
          | Built v =>
              Forall2 (λ path s, loader ctx path = (Some s, None))
                      (configuredPaths config) (couponSets v)
          | Failed e' =>
              ∃ path e, path ∈ configuredPaths config
                        ∧ (loader ctx path).2 = Some e
                        ∧ e' = WrapError ("failed to load coupon file " +:+ path) e
          | Panicked =>
              ∃ path, path ∈ configuredPaths config
                      ∧ loader ctx path = (None, None)
          end) as Hchar.
  { unfold NewValidator. fold (configuredPaths config).
    rewrite collectResults_ordered by done.
    pose proof (populate_ordered ctx loader (configuredPaths config)
                  (configuredPaths config) [] [] eq_refl) as Hpop.
    simpl in Hpop.
    destruct (populate _ _ _ _) as [v|e'|]; [|done..].
    destruct Hpop as (new & -> & Hall). done. }
  split; [exact Hchar|].
  intros (path & Hin & Hfail) Hconv.
  destruct (NewValidator ctx config loader arrival) as [v|e'|].
  - exfalso. apply list_elem_of_lookup in Hin as [i Hi].
    destruct (Forall2_lookup_l _ _ _ _ _ Hchar Hi) as (s & _ & Hs).
    rewrite Hs in Hfail. done.
  - destruct Hchar as (q & e & Hq & He & ->). eauto.
  - exfalso. destruct Hchar as (q & Hq & Hnil). by apply (Hconv q).
Qed.

Lemma NewValidator_fail_fast_witness :
  [1; 2; 0] ≡ₚ seq 0 (length (configuredPaths (Some fixtures.brokenConfig)))
  ∧ ∃ path e, path ∈ configuredPaths (Some fixtures.brokenConfig)
      ∧ (fixtures.loader Background path).2 = Some e
      ∧ NewValidator Background (Some fixtures.brokenConfig) fixtures.loader [1; 2; 0]
        = Failed (WrapError ("failed to load coupon file " +:+ path) e).
Proof.
  assert ([1; 2; 0] ≡ₚ seq 0 (length (configuredPaths (Some fixtures.brokenConfig))))
    as Hperm.
  { simpl. change [1; 2; 0] with ([1; 2] ++ [0])%list.
    apply Permutation_app_comm. }
  split; [exact Hperm|].
  apply (proj2 (NewValidator_fail_fast Background (Some fixtures.brokenConfig)
                  fixtures.loader [1; 2; 0] Hperm)).
  - exists "missing.gz". split; [|discriminate].
    apply list_elem_of_In. simpl. tauto.
  - intros path Hin. apply list_elem_of_In in Hin. simpl in Hin.
    destruct Hin as [<-|[<-|[<-|[]]]]; discriminate.
Defined.

(** The three fixture files load, in any completion order, into the three
    sets in configured order; with the second file missing the constructor
    reports that file. *)
Example NewValidator_fixtures :
  NewValidator Background (Some (fixtures.config 2)) fixtures.loader [2; 0; 1]
    = Built fixtures.threeSets
  ∧ NewValidator Background (Some fixtures.brokenConfig) fixtures.loader [2; 0; 1]
    = Failed (WrapError "failed to load coupon file missing.gz"
               (WrapError "failed to open coupon file missing.gz"
                  (ExternalError "no such file or directory"))).
Proof. split; reflexivity. Qed.

(** ** The counting protocol *)

Lemma unsent_insert ws i w w' :
  ws !! i = Some w →
  unsent (<[i := w']> ws) + alive w = unsent ws + alive w'.
Proof.
  unfold unsent. revert i.
  induction ws as [|x ws IH]; intros [|i] Hi; simpl in Hi; simplify_eq.
  - simpl. lia.
  - specialize (IH i Hi). simpl. unfold fmap in *. lia.
Qed.

Lemma unsent_replicate n : unsent (replicate n WStart) = n.
Proof. unfold unsent. induction n; csimpl; lia. Qed.

Lemma unsent_allReturned ws : Forall (λ w, w = WExit) ws → unsent ws = 0.
Proof. unfold unsent. induction 1 as [|w ws -> _ IH]; csimpl; lia. Qed.

Lemma trues_le results : trues results ≤ length results.
Proof.
  unfold trues. induction results as [|[] results IH]; csimpl; lia.
Qed.

Lemma trues_app results found :
  trues (results ++ [found]) = trues results + hit found.
Proof.
  unfold trues. induction results as [|b results IH]; csimpl; lia.
Qed.

Lemma owed_insert code ws : ∀ sets i w w' s,
  ws !! i = Some w → sets !! i = Some s →
  owed code (<[i := w']> ws) sets + alive w * hit (Contains s code)
  = owed code ws sets + alive w' * hit (Contains s code).
Proof.
  unfold owed.
  induction ws as [|x ws IH]; intros [|y sets] [|i] w w' s Hw Hs;
    simpl in Hw, Hs; simplify_eq; [simpl; lia|].
  specialize (IH sets i w w' s Hw Hs). simpl. lia.
Qed.

Lemma owed_le_unsent code ws : ∀ sets, owed code ws sets ≤ unsent ws.
Proof.
  unfold owed, unsent.
  induction ws as [|w ws IH]; intros [|s sets]; csimpl; [lia..|].
  specialize (IH sets). destruct w, (Contains s code); simpl; lia.
Qed.

Lemma owed_launched code sets :
  owed code (replicate (length sets) WStart) sets
  = length (filter (λ s, code ∈ coupons s) sets).
Proof.
  unfold owed. induction sets as [|s sets IH]; [done|]. csimpl.
  rewrite IH. unfold Contains.
  destruct (decide (code ∈ coupons s)) as [Hin|Hout].
  - rewrite filter_cons_True, bool_decide_eq_true_2 by done. simpl. lia.
  - rewrite filter_cons_False, bool_decide_eq_false_2 by done. simpl. lia.
Qed.

Section protocol_facts.
Variable v : validator.
Variable ctx : Context.
Variable promoCode : string.

Lemma wellFormed_launched : wellFormed v ctx (launched v).
Proof.
  unfold wellFormed, launched, loopTest. case_bool_decide; simpl.
  - rewrite length_replicate, unsent_replicate. repeat split; lia.
  - rewrite length_replicate, unsent_replicate. repeat split; lia.
Qed.

Lemma wellFormed_tick st : wellFormed v ctx st → wellFormed v ctx (tick st).
Proof.
  destruct st as [ws chan dn pc clk lk].
  unfold wellFormed. simpl. intros (Hlen & Hcap & Hmain).
  repeat split; try done.
  destruct pc as [m c|r]; [|done].
  destruct Hmain as (Hdn & Hmc & Hc & Hle & Heq).
  repeat split; try done.
  intros Hlater. apply Heq.
  destruct (Done ctx clk) eqn:Hnow; [|done].
  apply Done_mono in Hnow. congruence.
Qed.

(** The four things a move of a lookup goroutine can be: nothing, a
    return without sending, the lookup, the send. *)
Lemma workerStep_cases st i p :
  let st' := workerStep v ctx promoCode i p st in
  st' = st
  ∨ (∃ w, workers st !! i = Some w ∧ alive w = 1
          ∧ (doneChan st = true ∨ Done ctx (clock st) = true)
          ∧ st' = setWorker st i WExit)
  ∨ (∃ s, workers st !! i = Some WStart ∧ couponSets v !! i = Some s
          ∧ Done ctx (clock st) = false
          ∧ st' = mkState (<[i := WLooked (Contains s promoCode)]> (workers st))
                    (resultChan st) (doneChan st) (mainpc st) (clock st)
                    (lookups st ++ [i]))
  ∨ (∃ found, workers st !! i = Some (WLooked found)
          ∧ length (resultChan st) < length (couponSets v)
          ∧ st' = mkState (<[i := WExit]> (workers st))
                    (resultChan st ++ [found]) (doneChan st) (mainpc st)
                    (clock st) (lookups st)).
Proof.
  unfold workerStep.
  destruct (workers st !! i) as [[|found|]|] eqn:Hw; [| |by left..].
  - destruct (couponSets v !! i) as [s|] eqn:Hs; [|by left].
    destruct (doneChan st || Done ctx (clock st)) eqn:Hquit.
    + right; left. exists WStart. apply orb_true_iff in Hquit. done.
    + right; right; left. exists s.
      apply orb_false_iff in Hquit as [_ Hctx]. done.
  - destruct p.
    + case_bool_decide; [|by left]. right; right; right. by exists found.
    + destruct (doneChan st) eqn:Hdn; [|by left].
      right; left. exists (WLooked found). auto.
    + destruct (Done ctx (clock st)) eqn:Hctx; [|by left].
      right; left. exists (WLooked found). auto.
Qed.

(** The things a move of the main goroutine can be: nothing, a result
    received after which the loop goes on, a result received after which
    the function returns, a return on [ctx.Done()]. *)
Lemma mainStep_cases st p :
  let st' := mainStep v ctx p st in
  st' = st
  ∨ (∃ matches checked found rest,
        mainpc st = MLoop matches checked ∧ resultChan st = found :: rest
        ∧ ¬ (found = true ∧ 2 ≤ matches + hit found)
        ∧ ¬ (matches + hit found + (length (couponSets v) - S checked) < 2)
        ∧ S checked < length (couponSets v)
        ∧ st' = mkState (workers st) rest (doneChan st)
                  (MLoop (matches + hit found) (S checked)) (clock st)
                  (lookups st))
  ∨ (∃ matches checked found rest,
        mainpc st = MLoop matches checked ∧ resultChan st = found :: rest
        ∧ ((found = true ∧ 2 ≤ matches + hit found)
           ∨ matches + hit found + (length (couponSets v) - S checked) < 2
           ∨ ¬ S checked < length (couponSets v))
        ∧ st' = mkState (workers st) rest true
                  (MRet (matches + hit found)) (clock st) (lookups st))
  ∨ (∃ matches checked,
        mainpc st = MLoop matches checked ∧ Done ctx (clock st) = true
        ∧ st' = ret st matches).
Proof.
  unfold mainStep.
  destruct (mainpc st) as [m c|r] eqn:Hpc; [|by left].
  destruct p.
  - destruct (resultChan st) as [|found rest] eqn:Hchan; [by left|].
    assert ((if found then S m else m) = m + hit found) as ->.
    { destruct found; simpl; lia. }
    destruct (found && bool_decide (2 ≤ m + hit found)) eqn:Hquorum.
    { right; right; left. exists m, c, found, rest.
      apply andb_true_iff in Hquorum as [-> Hq%bool_decide_eq_true].
      unfold ret. simpl. split; [done|]. split; [done|]. split; [|done].
      left. done. }
    destruct (decide (m + hit found + (length (couponSets v) - S c) < 2))
      as [Himp|Himp].
    { rewrite bool_decide_eq_true_2 by done.
      right; right; left. exists m, c, found, rest.
      unfold ret. simpl. split; [done|]. split; [done|]. split; [|done].
      right; left. done. }
    rewrite bool_decide_eq_false_2 by done.
    unfold loopTest. simpl.
    destruct (decide (S c < length (couponSets v))) as [Hmore|Hmore].
    + rewrite bool_decide_eq_true_2 by done.
      right; left. exists m, c, found, rest.
      split; [done|]. split; [done|]. split.
      { intros [-> Hq]. simpl in Hquorum.
        by rewrite bool_decide_eq_true_2 in Hquorum. }
      done.
    + rewrite bool_decide_eq_false_2 by done.
      right; right; left. exists m, c, found, rest.
      unfold ret. simpl. split; [done|]. split; [done|]. split; [|done].
      right; right. done.
  - destruct (Done ctx (clock st)) eqn:Hctx; [|by left].
    right; right; right. by exists m, c.
Qed.

Lemma wellFormed_workerStep st i p :
  wellFormed v ctx st → wellFormed v ctx (workerStep v ctx promoCode i p st).
Proof.
  intros Hwf.
  destruct (workerStep_cases st i p)
    as [->|[(w & Hw & Hal & Hquit & ->)|[(s & Hw & Hs & _ & ->)|(b & Hw & Hroom & ->)]]];
    [done|..];
    destruct Hwf as (Hlen & Hcap & Hmain); unfold wellFormed; simpl;
    rewrite length_insert, ?length_app; simpl.
  - pose proof (unsent_insert _ _ _ WExit Hw) as Hun. simpl in Hun.
    split; [done|]. split; [lia|].
    destruct (mainpc st) as [m c|r]; [|done].
    destruct Hmain as (Hdn & Hmc & Hc & Hle & Heq).
    repeat split; [done|done|done|lia|].
    intros Hnow. destruct Hquit; congruence.
  - pose proof (unsent_insert _ _ _ (WLooked (Contains s promoCode)) Hw) as Hun.
    simpl in Hun.
    split; [done|]. split; [lia|].
    destruct (mainpc st) as [m c|r]; [|done].
    destruct Hmain as (Hdn & Hmc & Hc & Hle & Heq).
    repeat split; [done|done|done|lia|].
    intros Hnow. specialize (Heq Hnow). lia.
  - pose proof (unsent_insert _ _ _ WExit Hw) as Hun. simpl in Hun.
    split; [done|]. split; [lia|].
    destruct (mainpc st) as [m c|r]; [|done].
    destruct Hmain as (Hdn & Hmc & Hc & Hle & Heq).
    repeat split; [done|done|done|lia|].
    intros Hnow. specialize (Heq Hnow). lia.
Qed.

Lemma hit_le b : hit b ≤ 1.
Proof. destruct b; simpl; lia. Qed.

Lemma wellFormed_mainStep st p :
  wellFormed v ctx st → wellFormed v ctx (mainStep v ctx p st).
Proof.
  intros Hwf.
  destruct (mainStep_cases st p)
    as [->|[(m & c & b & rest & Hpc & Hchan & _ & _ & Hmore & ->)
           |[(m & c & b & rest & Hpc & Hchan & _ & ->)
            |(m & c & Hpc & _ & ->)]]];
    [done|..];
    destruct Hwf as (Hlen & Hcap & Hmain); unfold wellFormed; simpl;
    rewrite Hpc in Hmain; destruct Hmain as (Hdn & Hmc & Hc & Hle & Heq);
    rewrite ?Hchan in *; simpl in *.
  - pose proof (hit_le b). repeat split; [done|lia|done|lia|done|lia|].
    intros Hnow. specialize (Heq Hnow). lia.
  - pose proof (hit_le b). repeat split; [done|lia|lia].
  - repeat split; [done|lia|lia].
Qed.

Lemma wellFormed_step st a :
  wellFormed v ctx st → wellFormed v ctx (step v ctx promoCode st a).
Proof.
  intros Hwf. unfold step. apply wellFormed_tick.
  destruct a; [by apply wellFormed_workerStep|by apply wellFormed_mainStep].
Qed.

Lemma wellFormed_steps sched : ∀ st,
  wellFormed v ctx st → wellFormed v ctx (foldl (step v ctx promoCode) st sched).
Proof.
  induction sched as [|a sched IH]; intros st Hwf; [done|].
  simpl. by apply IH, wellFormed_step.
Qed.

Lemma wellFormed_run sched : wellFormed v ctx (run v ctx promoCode sched).
Proof. apply wellFormed_steps, wellFormed_launched. Qed.

(** *** No cancellation: every match is accounted for *)

Lemma totalMatches_nil : couponSets v = [] → totalMatches v promoCode = 0.
Proof. unfold totalMatches. by intros ->. Qed.

Lemma accounted_launched : accounted v promoCode (launched v).
Proof.
  unfold accounted, launched, loopTest. case_bool_decide as HN; simpl.
  - split.
    + intros i found [[=] _]%lookup_replicate.
    + split; [lia|]. unfold trues. simpl. apply owed_launched.
  - split.
    + intros i found [[=] _]%lookup_replicate.
    + rewrite totalMatches_nil; [done|].
      apply nil_length_inv. lia.
Qed.

Lemma accounted_workerStep st i p :
  deadline ctx = None → wellFormed v ctx st →
  accounted v promoCode st →
  accounted v promoCode (workerStep v ctx promoCode i p st).
Proof.
  intros Hnever Hwf [Hlooked Hacc].
  destruct (workerStep_cases st i p)
    as [->|[(w & Hw & Hal & Hquit & ->)|[(s & Hw & Hs & _ & ->)|(b & Hw & Hroom & ->)]]];
    [done|..]; unfold accounted; simpl.
  - rewrite (Done_never _ _ Hnever) in Hquit.
    destruct Hquit as [Hdn|]; [|done].
    destruct Hwf as (_ & _ & Hmain).
    split.
    + intros j found Hj. destruct (decide (i = j)) as [->|Hne].
      * rewrite list_lookup_insert_eq in Hj by by eapply lookup_lt_Some.
        done.
      * rewrite list_lookup_insert_ne in Hj by done. by apply Hlooked.
    + destruct (mainpc st) as [m c|r]; [|done].
      destruct Hmain as (Hopen & _). congruence.
  - split.
    + intros j found Hj. destruct (decide (i = j)) as [->|Hne].
      * rewrite list_lookup_insert_eq in Hj by by eapply lookup_lt_Some.
        injection Hj as <-. eauto.
      * rewrite list_lookup_insert_ne in Hj by done. by apply Hlooked.
    + destruct (mainpc st) as [m c|r]; [|done].
      pose proof (owed_insert promoCode _ _ _ _
                    (WLooked (Contains s promoCode)) _ Hw Hs) as Hown.
      simpl in Hown. lia.
  - destruct (Hlooked _ _ Hw) as (s & Hs & ->).
    split.
    + intros j found Hj. destruct (decide (i = j)) as [->|Hne].
      * rewrite list_lookup_insert_eq in Hj by by eapply lookup_lt_Some.
        done.
      * rewrite list_lookup_insert_ne in Hj by done. by apply Hlooked.
    + destruct (mainpc st) as [m c|r]; [|done].
      pose proof (owed_insert promoCode _ _ _ _ WExit _ Hw Hs) as Hown.
      simpl in Hown. rewrite trues_app. lia.
Qed.

Lemma accounted_mainStep st p :
  deadline ctx = None → wellFormed v ctx st →
  accounted v promoCode st →
  accounted v promoCode (mainStep v ctx p st).
Proof.
  intros Hnever Hwf [Hlooked Hacc].
  destruct (mainStep_cases st p)
    as [->|[(m & c & b & rest & Hpc & Hchan & Hnq & _ & Hmore & ->)
           |[(m & c & b & rest & Hpc & Hchan & Hwhy & ->)
            |(m & c & Hpc & Hctx & ->)]]];
    [done|..]; unfold accounted; simpl.
  - split; [done|]. rewrite Hpc, Hchan in Hacc.
    unfold trues in *. simpl in Hacc.
    split; [|unfold fmap in *; lia].
    destruct b; simpl in *; lia.
  - split; [done|]. rewrite Hpc, Hchan in Hacc.
    destruct Hwf as (_ & _ & Hmain). rewrite Hpc, Hchan in Hmain.
    destruct Hmain as (_ & _ & Hc & _ & Heq).
    specialize (Heq (Done_never _ _ Hnever)). simpl in Heq.
    pose proof (trues_le rest).
    pose proof (owed_le_unsent promoCode (workers st) (couponSets v)).
    assert (trues (b :: rest) = hit b + trues rest) as Hcons by done.
    destruct Hwhy as [[-> Hq]|[Himp|Hlast]]; simpl in *; lia.
  - by rewrite (Done_never _ _ Hnever) in Hctx.
Qed.

Lemma accounted_steps sched : ∀ st,
  deadline ctx = None → wellFormed v ctx st → accounted v promoCode st →
  accounted v promoCode (foldl (step v ctx promoCode) st sched).
Proof.
  induction sched as [|a sched IH]; intros st Hnever Hwf Hacc; [done|].
  simpl. apply IH; [done|by apply wellFormed_step|].
  unfold step. destruct a.
  - by apply (accounted_workerStep st i p) in Hacc.
  - by apply (accounted_mainStep st p) in Hacc.
Qed.

(** *** Once returned, always returned *)

Lemma returned_step st a r :
  mainpc st = MRet r → mainpc (step v ctx promoCode st a) = MRet r.
Proof.
  intros Hret. unfold step. destruct a as [i p|p]; simpl.
  - destruct (workerStep_cases st i p)
      as [->|[(w & _ & _ & _ & ->)|[(s & _ & _ & _ & ->)|(b & _ & _ & ->)]]];
      done.
  - unfold mainStep. by rewrite Hret.
Qed.

Lemma returned_steps sched : ∀ st r,
  mainpc st = MRet r → mainpc (foldl (step v ctx promoCode) st sched) = MRet r.
Proof.
  induction sched as [|a sched IH]; intros st r Hret; [done|].
  simpl. by apply IH, returned_step.
Qed.

(** *** Every run can be completed *)

Lemma exited_step st a j :
  workers st !! j = Some WExit →
  workers (step v ctx promoCode st a) !! j = Some WExit.
Proof.
  intros Hj. unfold step. destruct a as [i p|p]; simpl.
  - destruct (workerStep_cases st i p)
      as [->|[(w & Hw & Hal & _ & ->)|[(s & Hw & _ & _ & ->)|(b & Hw & _ & ->)]]];
      [done|..]; simpl;
      (destruct (decide (i = j)) as [->|Hne];
       [rewrite Hj in Hw; by simplify_eq|by rewrite list_lookup_insert_ne]).
  - destruct (mainStep_cases st p)
      as [->|[(m & c & b & rest & _ & _ & _ & _ & _ & ->)
             |[(m & c & b & rest & _ & _ & _ & ->)
              |(m & c & _ & _ & ->)]]]; done.
Qed.

Lemma unsent_pos ws i w : ws !! i = Some w → alive w = 1 → 1 ≤ unsent ws.
Proof.
  intros Hw Hal. pose proof (unsent_insert ws i w WExit Hw) as Hun.
  simpl in Hun. lia.
Qed.

(** Two moves are enough for a lookup goroutine to return. *)
Lemma worker_drained st i :
  wellFormed v ctx st → i < length (couponSets v) →
  workers (foldl (step v ctx promoCode) st
             [Worker i SendResult; Worker i SendResult]) !! i
  = Some WExit.
Proof.
  intros Hwf Hi.
  change (foldl ?f st [?a; ?b]) with (f (f st a) b).
  assert (∀ st, wellFormed v ctx st →
            (∃ found, workers st !! i = Some (WLooked found)) →
            workers (step v ctx promoCode st (Worker i SendResult)) !! i
            = Some WExit) as Hsend.
  { intros st1 Hwf1 [found Hw]. unfold step, workerStep. simpl. rewrite Hw.
    destruct Hwf1 as (Hlen & Hcap & _).
    pose proof (unsent_pos _ _ _ Hw eq_refl).
    rewrite bool_decide_eq_true_2 by lia. simpl.
    apply list_lookup_insert_eq. by eapply lookup_lt_Some. }
  destruct (workers st !! i) as [w|] eqn:Hw; last first.
  { apply lookup_ge_None in Hw. destruct Hwf as (Hlen & _). lia. }
  destruct w as [|found|].
  - destruct (lookup_lt_is_Some_2 (couponSets v) i Hi) as [s Hs].
    assert (workers (step v ctx promoCode st (Worker i SendResult)) !! i
            = Some WExit
            ∨ ∃ found, workers (step v ctx promoCode st (Worker i SendResult)) !! i
                       = Some (WLooked found)) as [Hout|Hin].
    { unfold step, workerStep. simpl. rewrite Hw, Hs.
      destruct (doneChan st || Done ctx (clock st)); simpl;
        rewrite list_lookup_insert_eq by by eapply lookup_lt_Some.
      - by left.
      - right. eauto. }
    + by apply exited_step.
    + apply Hsend; [by apply wellFormed_step|done].
  - apply exited_step. apply Hsend; eauto.
  - by do 2 apply exited_step.
Qed.

Lemma drainWorkers_from k : ∀ a st,
  wellFormed v ctx st → a + k ≤ length (couponSets v) →
  (∀ j, j < a → workers st !! j = Some WExit) →
  ∀ j, j < a + k →
    workers (foldl (step v ctx promoCode) st
               (flat_map (λ i, [Worker i SendResult; Worker i SendResult])
                         (seq a k))) !! j
    = Some WExit.
Proof.
  induction k as [|k IH]; intros a st Hwf Hle Hbefore j Hj.
  - simpl. apply Hbefore. lia.
  - change (seq a (S k)) with (a :: seq (S a) k).
    change (flat_map ?f (a :: ?l)) with (f a ++ flat_map f l)%list.
    rewrite foldl_app.
    apply IH; [by apply wellFormed_steps|lia| |lia].
    intros j' Hj'. destruct (decide (j' = a)) as [->|Hne].
    + apply worker_drained; [done|lia].
    + change (foldl ?f st [?x; ?y]) with (f (f st x) y).
      do 2 apply exited_step. apply Hbefore. lia.
Qed.

Lemma drainWorkers_allReturned st :
  wellFormed v ctx st →
  allReturned (foldl (step v ctx promoCode) st
                 (drainWorkers (length (couponSets v)))).
Proof.
  intros Hwf. unfold allReturned. apply Forall_lookup. intros j w Hw.
  pose proof (wellFormed_steps (drainWorkers (length (couponSets v))) st Hwf)
    as (Hlen & _).
  rewrite (drainWorkers_from (length (couponSets v)) 0 st) in Hw.
  - congruence.
  - done.
  - lia.
  - intros; lia.
  - apply lookup_lt_Some in Hw. lia.
Qed.

Lemma allReturned_step st a :
  allReturned st → allReturned (step v ctx promoCode st a).
Proof.
  unfold allReturned. rewrite !Forall_lookup. intros Hall j w Hw.
  assert (is_Some (workers st !! j)) as [w0 Hw0].
  { apply lookup_lt_is_Some.
    apply lookup_lt_Some in Hw.
    assert (length (workers (step v ctx promoCode st a)) = length (workers st))
      as <-; [|done].
    unfold step. destruct a as [i p|p]; simpl.
    - destruct (workerStep_cases st i p)
        as [->|[(? & _ & _ & _ & ->)|[(? & _ & _ & _ & ->)|(? & _ & _ & ->)]]];
        simpl; by rewrite ?length_insert.
    - destruct (mainStep_cases st p)
        as [->|[(? & ? & ? & ? & _ & _ & _ & _ & _ & ->)
               |[(? & ? & ? & ? & _ & _ & _ & ->)
                |(? & ? & _ & _ & ->)]]]; done. }
  pose proof (Hall _ _ Hw0) as ->.
  apply (exited_step st a) in Hw0. congruence.
Qed.

(** With every lookup goroutine returned, one try of each case of the
    main [select] either returns or receives one more result. *)
Lemma main_drained st :
  wellFormed v ctx st → allReturned st →
  toCheck v (foldl (step v ctx promoCode) st [Main RecvResult; Main MainSeeCtx])
  ≤ toCheck v st - 1.
Proof.
  intros Hwf Hall.
  change (foldl ?f st [?a; ?b]) with (f (f st a) b).
  destruct (mainpc st) as [m c|r] eqn:Hpc; last first.
  { unfold toCheck.
    rewrite (returned_step _ _ r (returned_step _ _ r Hpc)). lia. }
  pose proof Hwf as (Hlen & Hcap & Hmain). rewrite Hpc in Hmain.
  destruct Hmain as (Hdn & Hmc & Hc & Hle & Heq).
  assert (toCheck v st = length (couponSets v) - c) as Hst.
  { unfold toCheck. by rewrite Hpc. }
  destruct (resultChan st) as [|found rest] eqn:Hchan.
  - (* nothing to receive: a result was dropped, so the context fired *)
    assert (Done ctx (clock st) = true) as Hctx.
    { destruct (Done ctx (clock st)) eqn:Hnow; [done|].
      specialize (Heq eq_refl). rewrite (unsent_allReturned _ Hall) in Heq.
      simpl in Heq. lia. }
    assert (step v ctx promoCode st (Main RecvResult) = tick st) as ->.
    { unfold step, mainStep. by rewrite Hpc, Hchan. }
    unfold toCheck, step, mainStep. simpl. rewrite Hpc.
    rewrite (Done_mono _ _ Hctx). simpl. lia.
  - destruct (mainStep_cases st RecvResult)
      as [Hsame|[(m' & c' & b & rest' & Hpc' & Hchan' & _ & _ & Hmore & Hst')
             |[(m' & c' & b & rest' & Hpc' & Hchan' & _ & Hst')
              |(m' & c' & Hpc' & _ & Hst')]]].
    + exfalso. unfold mainStep in Hsame. rewrite Hpc, Hchan in Hsame.
      apply (f_equal resultChan) in Hsame. rewrite Hchan in Hsame.
      revert Hsame.
      destruct (found && _); [|destruct (bool_decide _)];
        unfold ret, loopTest; simpl; try case_bool_decide; simpl;
        intros Hsame; apply (f_equal length) in Hsame; simpl in Hsame; lia.
    + rewrite Hpc in Hpc'. injection Hpc' as <- <-.
      unfold step at 2. rewrite Hst'.
      unfold toCheck, step, mainStep. simpl.
      rewrite Hpc. destruct (Done ctx (S (clock st))); simpl; lia.
    + unfold toCheck.
      erewrite (returned_step _ (Main MainSeeCtx)); [lia|].
      unfold step. rewrite Hst'. done.
    + unfold toCheck.
      erewrite (returned_step _ (Main MainSeeCtx)); [lia|].
      unfold step. rewrite Hst'. done.
Qed.

Lemma drainMain_toCheck k : ∀ st,
  wellFormed v ctx st → allReturned st →
  toCheck v (foldl (step v ctx promoCode) st (drainMain k)) ≤ toCheck v st - k.
Proof.
  induction k as [|k IH]; intros st Hwf Hall; [simpl; lia|].
  change (drainMain (S k))
    with ([Main RecvResult; Main MainSeeCtx] ++ drainMain k)%list.
  rewrite foldl_app.
  etransitivity; [apply IH|].
  - by apply wellFormed_steps.
  - change (foldl ?f st [?a; ?b]) with (f (f st a) b).
    by do 2 apply allReturned_step.
  - pose proof (main_drained st Hwf Hall). lia.
Qed.

(** From any reachable state, the draining schedule makes the main
    goroutine return. *)
Lemma drain_returns st :
  wellFormed v ctx st →
  ∃ r, mainpc (foldl (step v ctx promoCode) st (drain (length (couponSets v))))
       = MRet r.
Proof.
  intros Hwf. unfold drain. rewrite foldl_app.
  set (st1 := foldl _ st (drainWorkers _)).
  assert (wellFormed v ctx st1) as Hwf1 by by apply wellFormed_steps.
  assert (allReturned st1) as Hall1 by by apply drainWorkers_allReturned.
  pose proof (drainMain_toCheck (length (couponSets v)) st1 Hwf1 Hall1) as Hgo.
  pose proof (wellFormed_steps (drainMain (length (couponSets v))) st1 Hwf1)
    as (_ & _ & Hmain).
  unfold toCheck in Hgo at 1.
  destruct (mainpc (foldl _ st1 _)) as [m c|r]; [|eauto].
  destruct Hmain as (_ & _ & Hc & _).
  assert (toCheck v st1 ≤ length (couponSets v)).
  { unfold toCheck. destruct (mainpc st1); lia. }
  lia.
Qed.

Lemma run_completes sched :
  ∃ r, countMatches v ctx promoCode (sched ++ drain (length (couponSets v)))
       = Some r.
Proof.
  unfold countMatches, run. rewrite foldl_app.
  destruct (drain_returns (foldl (step v ctx promoCode) (launched v) sched))
    as [r ->]; [apply wellFormed_run|eauto].
Qed.

End protocol_facts.

Section lookup_facts.
Variable v : validator.
Variable ctx : Context.
Variable promoCode : string.

(** Only configured sets are ever looked into. *)
Lemma lookups_steps sched : ∀ st,
  Forall (λ i, i < length (couponSets v)) (lookups st) →
  Forall (λ i, i < length (couponSets v))
         (lookups (foldl (step v ctx promoCode) st sched)).
Proof.
  induction sched as [|a sched IH]; intros st Hst; [done|].
  simpl. apply IH. unfold step. destruct a as [i p|p]; simpl.
  - destruct (workerStep_cases v ctx promoCode st i p)
      as [->|[(w & _ & _ & _ & ->)|[(s & _ & Hs & _ & ->)|(b & _ & _ & ->)]]];
      [done..| |done].
    simpl. apply Forall_app. split; [done|].
    apply Forall_singleton. by eapply lookup_lt_Some.
  - destruct (mainStep_cases v ctx st p)
      as [->|[(? & ? & ? & ? & _ & _ & _ & _ & _ & ->)
             |[(? & ? & ? & ? & _ & _ & _ & ->)
              |(? & ? & _ & _ & ->)]]]; done.
Qed.

Lemma lookups_run sched :
  Forall (λ i, i < length (couponSets v)) (lookups (run v ctx promoCode sched)).
Proof.
  apply lookups_steps. unfold launched, loopTest. by case_bool_decide.
Qed.

(** [Validate] lets only its own two domain errors out. *)
Lemma Validate_errors sched e :
  (Validate v ctx promoCode sched).1 = Returned (Some e) →
  e = ErrInvalidPromoLength ∨ e = ErrInvalidPromoCode.
Proof.
  unfold Validate.
  destruct (_ || _); [intros [= <-]; by left|].
  destruct (mainpc _); [done|].
  case_bool_decide; [intros [= <-]; by right|done].
Qed.

(** Under a context that never fires, a returned [Validate] accepts the
    code exactly when at least two sets hold it. *)
Lemma Validate_quorum_of_two sched e :
  deadline ctx = None →
  8 ≤ String.length promoCode ≤ 10 →
  (Validate v ctx promoCode sched).1 = Returned e →
  (e = None ↔ 2 ≤ totalMatches v promoCode)
  ∧ (e = Some ErrInvalidPromoCode ↔ totalMatches v promoCode < 2).
Proof.
  intros Hnever Hlen. unfold Validate.
  rewrite !bool_decide_eq_false_2 by lia. simpl.
  pose proof (accounted_steps v ctx promoCode sched (launched v) Hnever
                (wellFormed_launched v ctx) (accounted_launched v promoCode))
    as [_ Hacc].
  fold (run v ctx promoCode sched) in Hacc.
  destruct (mainpc (run v ctx promoCode sched)) as [m c|r]; [done|].
  case_bool_decide as Hr; intros [= <-].
  - split; split; try done; lia.
  - split; split; try done; lia.
Qed.

(** *** A context cancelled before the call *)

Lemma Done_cancelled t : deadline ctx = Some 0 → Done ctx t = true.
Proof. unfold Done. intros ->. apply bool_decide_eq_true. lia. Qed.

Lemma idle_launched : idle (launched v).
Proof.
  unfold idle, launched, loopTest. case_bool_decide; simpl.
  - repeat split; [|by left]. apply Forall_replicate. by left.
  - repeat split; [|by right]. apply Forall_replicate. by left.
Qed.

Lemma idle_step st a :
  deadline ctx = Some 0 → idle st → idle (step v ctx promoCode st a).
Proof.
  intros Hcancel (Hws & Hchan & Hlook & Hpc).
  unfold step, idle. destruct a as [i p|p]; simpl.
  - destruct (workerStep_cases v ctx promoCode st i p)
      as [->|[(w & Hw & _ & _ & ->)|[(s & _ & _ & Hctx & ->)|(b & Hw & _ & ->)]]].
    + done.
    + simpl. repeat split; [|done..]. apply Forall_insert; [done|by right].
    + by rewrite (Done_cancelled _ Hcancel) in Hctx.
    + exfalso. eapply Forall_lookup_1 in Hws; [|exact Hw].
      by destruct Hws.
  - destruct (mainStep_cases v ctx st p)
      as [->|[(m & c & b & rest & _ & Hrecv & _)
             |[(m & c & b & rest & _ & Hrecv & _)
              |(m & c & Hm & _ & ->)]]].
    + done.
    + congruence.
    + congruence.
    + simpl. repeat split; [done..|]. right.
      destruct Hpc as [Hpc|Hpc]; rewrite Hpc in Hm; by simplify_eq.
Qed.

Lemma idle_run sched :
  deadline ctx = Some 0 → idle (run v ctx promoCode sched).
Proof.
  intros Hcancel. unfold run. generalize idle_launched.
  generalize (launched v) as st.
  induction sched as [|a sched IH]; intros st Hst; [done|].
  simpl. by apply IH, idle_step.
Qed.

(** Whatever the sets hold, a [Validate] called with a cancelled context
    looks into no set and can only answer [ErrInvalidPromoCode]. *)
Lemma Validate_cancelled_before_call sched :
  deadline ctx = Some 0 →
  8 ≤ String.length promoCode ≤ 10 →
  Validate v ctx promoCode sched = (Pending, [])
  ∨ Validate v ctx promoCode sched = (Returned (Some ErrInvalidPromoCode), []).
Proof.
  intros Hcancel Hlen. unfold Validate.
  rewrite !bool_decide_eq_false_2 by lia. simpl.
  destruct (idle_run sched Hcancel) as (_ & _ & -> & [->| ->]); [by left|].
  right. done.
Qed.

End lookup_facts.

(** ** Validate *)

(** X27 — Measured in bytes, the length window is exact: a code of fewer
    than 8 or more than 10 bytes makes [Validate] return
    [ErrInvalidPromoLength] at once, before any goroutine exists, so no set
    is looked into; codes of 8 to 10 bytes, both bounds included, are never
    answered with that error. *)
Theorem Validate_length_prefilter (v : validator) (ctx : Context)
    (promoCode : string) (sched : list action) :
  (String.length promoCode < 8 ∨ 10 < String.length promoCode →
   Validate v ctx promoCode sched = (Returned (Some ErrInvalidPromoLength), []))
  ∧ (8 ≤ String.length promoCode ≤ 10 →
     (Validate v ctx promoCode sched).1 ≠ Returned (Some ErrInvalidPromoLength)).
Proof.
  unfold Validate. split.
  - intros Hlen.
    destruct (decide (String.length promoCode < 8)) as [Hshort|Hnot].
    + by rewrite (bool_decide_eq_true_2 _ Hshort).
    + rewrite (bool_decide_eq_false_2 _ Hnot), bool_decide_eq_true_2; [done|lia].
  - intros Hlen. rewrite !bool_decide_eq_false_2 by lia. simpl.
    destruct (mainpc _); [done|]. case_bool_decide; done.
Qed.

Lemma Validate_length_prefilter_witness :
  Validate fixtures.threeSets Background "SHORT" (drain 3)
    = (Returned (Some ErrInvalidPromoLength), [])
  ∧ Validate fixtures.threeSets Background "ELEVENCHARS" (drain 3)
    = (Returned (Some ErrInvalidPromoLength), [])
  ∧ (Validate fixtures.threeSets Background "COMMON12" (drain 3)).1
    ≠ Returned (Some ErrInvalidPromoLength)
  ∧ (Validate fixtures.threeSets Background "VALIDCODE1" (drain 3)).1
    ≠ Returned (Some ErrInvalidPromoLength).
Proof.
  split; [|split; [|split]].
  - apply (proj1 (Validate_length_prefilter fixtures.threeSets Background
                    "SHORT" (drain 3))).
    left. simpl. lia.
  - apply (proj1 (Validate_length_prefilter fixtures.threeSets Background
                    "ELEVENCHARS" (drain 3))).
    right. simpl. lia.
  - apply (proj2 (Validate_length_prefilter fixtures.threeSets Background
                    "COMMON12" (drain 3))).
    simpl. lia.
  - apply (proj2 (Validate_length_prefilter fixtures.threeSets Background
                    "VALIDCODE1" (drain 3))).
    simpl. lia.
Defined.

(** C2 at the failing input — the window is measured with [len], in bytes,
    not in characters.  The code of five letters "ééééé" is ten bytes long:
    it passes the pre-filter, both sets are looked into and, held by both,
    it is accepted.  The code of eight letters "éééééééé" is sixteen bytes
    long and is answered with [ErrInvalidPromoLength]. *)
Theorem Validate_length_counts_bytes :
  utf8.RuneCountInString "ééééé" = 5
  ∧ String.length "ééééé" = 10
  ∧ Validate utf8.accentedSets Background "ééééé" (drain 2)
    = (Returned None, [0; 1])
  ∧ utf8.RuneCountInString "éééééééé" = 8
  ∧ String.length "éééééééé" = 16
  ∧ Validate utf8.accentedSets Background "éééééééé" (drain 2)
    = (Returned (Some ErrInvalidPromoLength), []).
Proof. repeat split; reflexivity. Qed.

(** C8 — With no cancellation, whatever the schedule, hence whatever the
    order in which the lookup results reach the counting loop, a value
    returned by [countMatches] through any of its exits reaches the
    threshold 2 exactly when the number of sets holding the code does; and
    every schedule can be completed into one on which it returns. *)
Theorem countMatches_order_independent (v : validator) (ctx : Context)
    (promoCode : string) (sched : list action) :
  deadline ctx = None →
  (∀ r, countMatches v ctx promoCode sched = Some r →
        (2 ≤ r ↔ 2 ≤ totalMatches v promoCode))
  ∧ ∃ r, countMatches v ctx promoCode (sched ++ drain (length (couponSets v)))
         = Some r.
Proof.
  intros Hnever. split; [|apply run_completes].
  intros r Hr. unfold countMatches in Hr.
  pose proof (accounted_steps v ctx promoCode sched (launched v) Hnever
                (wellFormed_launched v ctx) (accounted_launched v promoCode))
    as [_ Hacc].
  fold (run v ctx promoCode sched) in Hacc.
  destruct (mainpc (run v ctx promoCode sched)) as [m c|r']; [done|].
  by injection Hr as <-.
Qed.

Lemma countMatches_order_independent_witness :
  deadline Background = None
  ∧ (2 ≤ 2 ↔ 2 ≤ totalMatches fixtures.threeSets "COMMON123").
Proof.
  split; [reflexivity|].
  apply (proj1 (countMatches_order_independent fixtures.threeSets Background
                  "COMMON123"
                  [Worker 2 SendResult; Worker 1 SendResult; Worker 2 SendResult;
                   Worker 1 SendResult; Worker 0 SendResult; Main RecvResult;
                   Worker 0 SendResult; Main RecvResult; Main RecvResult]
                  eq_refl) 2).
  reflexivity.
Defined.

(** Two orders of arrival, one outcome; and the early exit on two misses
    returns before the third goroutine has run at all. *)
Example countMatches_two_orders :
  countMatches fixtures.threeSets Background "COMMON123"
    [Worker 0 SendResult; Worker 0 SendResult; Worker 1 SendResult;
     Worker 1 SendResult; Main RecvResult; Main RecvResult] = Some 2
  ∧ countMatches fixtures.threeSets Background "COMMON123"
    [Worker 2 SendResult; Worker 2 SendResult; Worker 1 SendResult;
     Worker 1 SendResult; Worker 0 SendResult; Worker 0 SendResult;
     Main RecvResult; Main RecvResult; Main RecvResult] = Some 2
  ∧ Validate fixtures.threeSets Background "VALIDCODE4"
    [Worker 0 SendResult; Worker 0 SendResult; Worker 1 SendResult;
     Worker 1 SendResult; Main RecvResult; Main RecvResult]
    = (Returned (Some ErrInvalidPromoCode), [0; 1]).
Proof. repeat split; reflexivity. Qed.

(** C9 — A validator holding fewer than two sets answers every code of
    valid length with [ErrInvalidPromoCode]: no schedule and no context
    makes [Validate] return anything else, and it does return. *)
Theorem Validate_fewer_than_two_sets (v : validator) (ctx : Context)
    (promoCode : string) (sched : list action) :
  length (couponSets v) < 2 →
  8 ≤ String.length promoCode ≤ 10 →
  (∀ e, (Validate v ctx promoCode sched).1 = Returned e →
        e = Some ErrInvalidPromoCode)
  ∧ (Validate v ctx promoCode (sched ++ drain (length (couponSets v)))).1
    = Returned (Some ErrInvalidPromoCode).
Proof.
  intros Hfew Hlen.
  assert (∀ sched' e, (Validate v ctx promoCode sched').1 = Returned e →
                      e = Some ErrInvalidPromoCode) as Honly.
  { intros sched' e. unfold Validate.
    rewrite !bool_decide_eq_false_2 by lia. simpl.
    pose proof (wellFormed_run v ctx promoCode sched') as (_ & _ & Hmain).
    destruct (mainpc _) as [m c|r]; [done|].
    rewrite bool_decide_eq_true_2 by lia. by intros [= <-]. }
  split; [apply Honly|].
  destruct (run_completes v ctx promoCode sched) as [r Hr].
  unfold countMatches in Hr.
  destruct (Validate v ctx promoCode (sched ++ drain (length (couponSets v))))
    as [[|e] touched] eqn:Hval.
  - exfalso. unfold Validate in Hval.
    rewrite !bool_decide_eq_false_2 in Hval by lia. simpl in Hval.
    destruct (mainpc _); [done|]. by case_bool_decide.
  - simpl. f_equal. apply (Honly (sched ++ drain (length (couponSets v)))%list).
    by rewrite Hval.
Qed.

Lemma Validate_fewer_than_two_sets_witness :
  length (couponSets (mkValidator [fixtures.set1])) < 2
  ∧ 8 ≤ String.length "VALIDCODE1" ≤ 10
  ∧ (Validate (mkValidator [fixtures.set1]) Background "VALIDCODE1"
       ([] ++ drain 1)).1
    = Returned (Some ErrInvalidPromoCode).
Proof.
  assert (length (couponSets (mkValidator [fixtures.set1])) < 2) as Hfew
    by (simpl; lia).
  assert (8 ≤ String.length "VALIDCODE1" ≤ 10) as Hlen by (simpl; lia).
  split; [exact Hfew|]. split; [exact Hlen|].
  exact (proj2 (Validate_fewer_than_two_sets (mkValidator [fixtures.set1])
                  Background "VALIDCODE1" [] Hfew Hlen)).
Defined.

(** C10 — [Close] always returns nil, leaves the set list nil and can be
    repeated; [Validate] on the closed validator starts no goroutine and
    returns [ErrInvalidPromoCode] for a code of valid length, under every
    context and schedule. *)
Theorem Validate_after_Close (v : validator) (ctx : Context)
    (promoCode : string) (sched : list action) :
  (Close v).2 = None
  ∧ couponSets (Close v).1 = []
  ∧ Close (Close v).1 = Close v
  ∧ (8 ≤ String.length promoCode ≤ 10 →
     Validate (Close v).1 ctx promoCode sched
     = (Returned (Some ErrInvalidPromoCode), [])).
Proof.
  repeat split. intros Hlen. unfold Validate.
  rewrite !bool_decide_eq_false_2 by lia. simpl.
  pose proof (lookups_run (mkValidator []) ctx promoCode sched) as Hlook.
  assert (lookups (run (mkValidator []) ctx promoCode sched) = []) as ->.
  { destruct (lookups _) as [|i rest]; [done|].
    apply Forall_cons in Hlook as [Hi _]. simpl in Hi. lia. }
  unfold run. by rewrite (returned_steps _ ctx promoCode sched _ 0).
Qed.

Lemma Validate_after_Close_witness :
  8 ≤ String.length "COMMON123" ≤ 10
  ∧ Validate (Close fixtures.threeSets).1 fixtures.expiring "COMMON123"
      (drain 3)
    = (Returned (Some ErrInvalidPromoCode), []).
Proof.
  assert (8 ≤ String.length "COMMON123" ≤ 10) as Hlen by (simpl; lia).
  split; [exact Hlen|].
  exact (proj2 (proj2 (proj2 (Validate_after_Close fixtures.threeSets
                                fixtures.expiring "COMMON123" (drain 3))))
           Hlen).
Defined.

(** C1 at the failing input — a configuration asking for three matches
    builds the same validator as one asking for two, since
    [MinMatchCount] is only logged; the code COMMON123, held by two of the
    three sets, is then accepted although the configured threshold is 3;
    and with a threshold of 1 the code VALIDCODE1, held by one set, is
    rejected. *)
Theorem Validate_ignores_MinMatchCount :
  (∀ minMatch,
     NewValidator Background (Some (fixtures.config minMatch)) fixtures.loader
       [0; 1; 2] = Built fixtures.threeSets)
  ∧ MinMatchCount (fixtures.config 3) = 3%Z
  ∧ totalMatches fixtures.threeSets "COMMON123" = 2
  ∧ Validate fixtures.threeSets Background "COMMON123" (drain 3)
    = (Returned None, [0; 1; 2])
  ∧ MinMatchCount (fixtures.config 1) = 1%Z
  ∧ totalMatches fixtures.threeSets "VALIDCODE1" = 1
  ∧ Validate fixtures.threeSets Background "VALIDCODE1" (drain 3)
    = (Returned (Some ErrInvalidPromoCode), [0; 1; 2]).
Proof. repeat split; reflexivity. Qed.

(** C3 at the failing input — with the context cancelled before the call,
    [Validate] answers a code held by two sets with [ErrInvalidPromoCode],
    having looked into no set; with a deadline that passes after one match
    was counted it answers the same.  No separate outcome exists for a
    cancellation. *)
Theorem Validate_cancelled_reports_invalid_code :
  totalMatches fixtures.threeSets "COMMON123" = 2
  ∧ Done fixtures.cancelled 0 = true
  ∧ Validate fixtures.threeSets fixtures.cancelled "COMMON123" (drain 3)
    = (Returned (Some ErrInvalidPromoCode), [])
  ∧ Done fixtures.expiring 0 = false
  ∧ Validate fixtures.threeSets fixtures.expiring "COMMON123"
      [Worker 0 SendResult; Worker 0 SendResult; Main RecvResult;
       Main MainSeeCtx]
    = (Returned (Some ErrInvalidPromoCode), [0]).
Proof. repeat split; reflexivity. Qed.

(* ===================================================================== *)
(** * Further properties *)
(* ===================================================================== *)

Import protocol.

(** ** set.go *)

(** X1 — After [Add(code)] the set contains [code], and any other code
    exactly when it did before. *)
Theorem Add_Contains (s : CouponSet) (code code' : string) :
  Contains (Add s code) code' = true ↔ code' = code ∨ Contains s code' = true.
Proof. rewrite !Contains_elem. unfold Add. simpl. set_solver. Qed.

(** X2 — [Add] leaves [Size] alone for a code already in the set and
    raises it by one for a new code; a new set is empty whatever the
    capacity asked for. *)
Theorem Size_Add (s : CouponSet) (code : string) (capacity : Z) :
  Size (Add s code) = (if Contains s code then Size s else S (Size s))
  ∧ Size (NewMapCouponSet capacity) = 0
  ∧ Contains (NewMapCouponSet capacity) code = false.
Proof.
  split; [|split; [done|]].
  - destruct (Contains s code) eqn:Hin.
    + by apply Add_idempotent.
    + unfold Contains in Hin. apply bool_decide_eq_false in Hin.
      unfold Size, Add. simpl. rewrite size_union by set_solver.
      rewrite size_singleton. lia.
  - unfold Contains, NewMapCouponSet. simpl.
    apply bool_decide_eq_false. set_solver.
Qed.

(** ** loader.go, s3_loader.go *)

(** X3 — A load started under a context that is already cancelled returns
    the context's error for every stream that has a line, but an empty
    stream still loads, as the empty set: the context is polled only inside
    the scanning loop. *)
Theorem fileLoader_Load_cancelled_before_call (TrimSpace : string → string)
    (fs : string → Source) (ctx : Context) (filePath : string)
    (lines : list string) (tail : option error) :
  fs filePath = Stream lines tail →
  Done ctx 0 = true →
  (lines ≠ [] →
   fileLoader_Load TrimSpace fs ctx filePath = (None, Some (Err ctx)))
  ∧ (lines = [] → tail = None →
     fileLoader_Load TrimSpace fs ctx filePath
     = (Some (NewMapCouponSet 100000000), None)).
Proof.
  intros Hfs Hdone. unfold fileLoader_Load. rewrite Hfs. split.
  - intros Hne. apply (loadStream_cancelled _ _ _ _ _ 0); [|done|done].
    destruct lines; [done|simpl; lia].
  - by intros -> ->.
Qed.

Lemma fileLoader_Load_cancelled_before_call_witness :
  fixtures.loader fixtures.cancelled "coupon3.gz"
  = (None, Some (Err fixtures.cancelled)).
Proof.
  apply (proj1 (fileLoader_Load_cancelled_before_call strings.TrimSpace
                  fixtures.fs fixtures.cancelled "coupon3.gz" fixtures.file3
                  None eq_refl eq_refl)).
  discriminate.
Defined.

(** X4 — From the same stream the S3 loader and the file loader give the
    same set, and one fails exactly when the other does; only the text
    that wraps a read error differs. *)
Theorem s3Loader_Load_same_set (TrimSpace : string → string) (l : s3Loader)
    (fs : string → Source) (ctx : Context) (key filePath : string)
    (lines : list string) (tail : option error) :
  client l (bucket l) key = Stream lines tail →
  fs filePath = Stream lines tail →
  (s3Loader_Load TrimSpace l ctx key).1
  = (fileLoader_Load TrimSpace fs ctx filePath).1
  ∧ ((s3Loader_Load TrimSpace l ctx key).2 = None
     ↔ (fileLoader_Load TrimSpace fs ctx filePath).2 = None).
Proof.
  intros Hs3 Hfs. unfold s3Loader_Load, fileLoader_Load, loadStream.
  rewrite Hs3, Hfs.
  destruct (scanLoop _ _ _ _ _ _); [destruct tail|]; done.
Qed.

Lemma s3Loader_Load_same_set_witness :
  (s3Loader_Load strings.TrimSpace fixtures.s3 Background "prod/coupon1.gz").1
  = (fixtures.loader Background "coupon1.gz").1.
Proof.
  exact (proj1 (s3Loader_Load_same_set strings.TrimSpace fixtures.s3
                  fixtures.fs Background "prod/coupon1.gz" "coupon1.gz"
                  fixtures.file1 None eq_refl eq_refl)).
Defined.

(** X5 — Two streams with the same lines, in whatever order and however
    often repeated, load into the same set (under a context that never
    fires and without read error). *)
Theorem fileLoader_Load_order_irrelevant (TrimSpace : string → string)
    (fs : string → Source) (ctx : Context) (path path' : string)
    (lines lines' : list string) :
  deadline ctx = None →
  fs path = Stream lines None →
  fs path' = Stream lines' None →
  (∀ line, line ∈ lines ↔ line ∈ lines') →
  fileLoader_Load TrimSpace fs ctx path = fileLoader_Load TrimSpace fs ctx path'.
Proof.
  intros Hnever Hfs Hfs' Hsame. unfold fileLoader_Load. rewrite Hfs, Hfs'.
  destruct (loadStream_never TrimSpace ctx lines
              ("error reading coupon file " +:+ path) Hnever) as [s Hs].
  destruct (loadStream_never TrimSpace ctx lines'
              ("error reading coupon file " +:+ path') Hnever) as [s' Hs'].
  rewrite Hs, Hs'.
  apply loadStream_set in Hs as (Hset & _).
  apply loadStream_set in Hs' as (Hset' & _).
  destruct s as [cs], s' as [cs']. simpl in *. do 3 f_equal.
  rewrite Hset, Hset'. apply set_eq. intros code.
  rewrite !elem_of_list_to_set, !elem_of_trimmedLines. naive_solver.
Qed.

Lemma fileLoader_Load_order_irrelevant_witness :
  fileLoader_Load strings.TrimSpace
    (λ path, if bool_decide (path = "a.gz")
             then Stream ["VALIDCODE3"; "VALIDCODE4"; "VALIDCODE3"] None
             else Stream ["VALIDCODE4"; "VALIDCODE3"] None)
    Background "a.gz"
  = fileLoader_Load strings.TrimSpace
    (λ path, if bool_decide (path = "a.gz")
             then Stream ["VALIDCODE3"; "VALIDCODE4"; "VALIDCODE3"] None
             else Stream ["VALIDCODE4"; "VALIDCODE3"] None)
    Background "b.gz".
Proof.
  apply (fileLoader_Load_order_irrelevant strings.TrimSpace _ Background
           "a.gz" "b.gz" ["VALIDCODE3"; "VALIDCODE4"; "VALIDCODE3"]
           ["VALIDCODE4"; "VALIDCODE3"]);
    [reflexivity..|].
  intros line. rewrite !elem_of_cons, !elem_of_nil. tauto.
Defined.

(** X6 — When the S3 load succeeds the chain returns its set and never
    calls the file loader; a chain built without an S3 loader calls only
    the file loader, even when S3 is switched on. *)
Theorem fallbackLoader_Load_primary_first (l : fallbackLoader) (ctx : Context)
    (filePath : string) :
  (∀ s3 set,
     s3Enabled l = true → fb_s3Loader l = Some s3 →
     s3 ctx (s3Prefix l +:+ filePath) = (set, None) →
     fallbackLoader_Load_traced l ctx filePath
     = ((set, None), [CallS3 (s3Prefix l +:+ filePath)]))
  ∧ (fb_s3Loader l = None →
     fallbackLoader_Load_traced l ctx filePath
     = (fb_fileLoader l ctx filePath, [CallFile filePath])).
Proof.
  unfold fallbackLoader_Load_traced. split.
  - intros s3 set Hen Hs3 Hok. by rewrite Hen, Hs3, Hok.
  - intros ->. by destruct (s3Enabled l).
Qed.

Lemma fallbackLoader_Load_primary_first_witness :
  fallbackLoader_Load_traced (fixtures.chain true) Background "coupon1.gz"
  = ((Some fixtures.set1, None), [CallS3 "prod/coupon1.gz"])
  ∧ fallbackLoader_Load_traced
      (NewFallbackLoader None fixtures.loader "prod/" true) Background
      "coupon1.gz"
    = (fixtures.loader Background "coupon1.gz", [CallFile "coupon1.gz"]).
Proof.
  split.
  - apply (proj1 (fallbackLoader_Load_primary_first (fixtures.chain true)
                    Background "coupon1.gz")
             (s3Loader_Load strings.TrimSpace fixtures.s3));
      reflexivity.
  - apply (proj2 (fallbackLoader_Load_primary_first
                    (NewFallbackLoader None fixtures.loader "prod/" true)
                    Background "coupon1.gz")).
    reflexivity.
Defined.

(** X7 — The chain returns a nil error exactly when the enabled S3 loader
    does or the file loader does: it fails only when every loader it may
    use fails. *)
Theorem fallbackLoader_Load_succeeds_iff (l : fallbackLoader) (ctx : Context)
    (filePath : string) :
  (fallbackLoader_Load l ctx filePath).2 = None ↔
  (s3Enabled l = true
   ∧ ∃ s3, fb_s3Loader l = Some s3
           ∧ (s3 ctx (s3Prefix l +:+ filePath)).2 = None)
  ∨ (fb_fileLoader l ctx filePath).2 = None.
Proof.
  unfold fallbackLoader_Load, fallbackLoader_Load_traced.
  destruct (s3Enabled l) eqn:Hen, (fb_s3Loader l) as [s3|] eqn:Hs3; simpl.
  - destruct (s3 ctx (s3Prefix l +:+ filePath)) as [set [e|]] eqn:Hload; simpl.
    + split; [by right|]. intros [(_ & s3' & [= <-] & Hok)|Hfile]; [|done].
      by rewrite Hload in Hok.
    + split; [|done]. intros _. left. split; [done|]. exists s3.
      by rewrite Hload.
  - split; [by right|]. by intros [(_ & s3' & [=] & _)|Hfile].
  - split; [by right|]. by intros [([=] & _)|Hfile].
  - split; [by right|]. by intros [([=] & _)|Hfile].
Qed.

(** X8 — A chain made of the repository's own loaders keeps their
    discipline: whenever it returns an error it returns no set. *)
Theorem fallbackLoader_Load_terminal (TrimSpace : string → string)
    (s3 : option s3Loader) (fs : string → Source) (prefix : string)
    (enabled : bool) (ctx : Context) (filePath : string)
    (set : option CouponSet) (e : error) :
  fallbackLoader_Load
    (NewFallbackLoader (s3Loader_Load TrimSpace <$> s3)
       (fileLoader_Load TrimSpace fs) prefix enabled)
    ctx filePath = (set, Some e) →
  set = None.
Proof.
  assert (∀ set e, fileLoader_Load TrimSpace fs ctx filePath = (set, Some e) →
                   set = None) as Hfile.
  { intros set' e'. unfold fileLoader_Load.
    destruct (fs filePath); [by intros [= <-]..|apply loadStream_error]. }
  unfold fallbackLoader_Load, fallbackLoader_Load_traced, NewFallbackLoader.
  simpl. destruct enabled, s3 as [l|]; simpl; try apply Hfile.
  destruct (s3Loader_Load TrimSpace l ctx (prefix +:+ filePath))
    as [set' [e'|]]; simpl; [apply Hfile|done].
Qed.

Lemma fallbackLoader_Load_terminal_witness :
  (fallbackLoader_Load
     (NewFallbackLoader
        (s3Loader_Load strings.TrimSpace <$> Some fixtures.s3)
        (fileLoader_Load strings.TrimSpace fixtures.fs) "prod/" true)
     Background "missing.gz").1 = None.
Proof.
  apply (fallbackLoader_Load_terminal strings.TrimSpace (Some fixtures.s3)
           fixtures.fs "prod/" true Background "missing.gz" _
           (WrapError "failed to open coupon file missing.gz"
              (ExternalError "no such file or directory"))).
  reflexivity.
Defined.

(** ** validator.go: construction *)

Section construction_more.
Variable ctx : Context.
Variable loader : Loader.
Variable paths : list string.

(** A failure reported by the in-order pass is the first one. *)
Lemma populate_first_failure (suffix : list string) :
  ∀ before sets e', paths = (before ++ suffix)%list →
    populate paths (length before)
      (imap (λ j, loadResultOf ctx loader (length before + j)) suffix) sets
    = Failed e' →
    ∃ i path e,
      suffix !! i = Some path
      ∧ (loader ctx path).2 = Some e
      ∧ e' = WrapError ("failed to load coupon file " +:+ path) e
      ∧ ∀ j q, j < i → suffix !! j = Some q → (loader ctx q).2 = None.
Proof.
  induction suffix as [|path rest IH]; intros before sets e' Hpaths; simpl;
    [done|].
  destruct (loader ctx path) as [set e] eqn:Hload. simpl.
  destruct e as [e|].
  - assert (paths !! length before = Some path) as ->.
    { rewrite Hpaths. by rewrite list_lookup_middle. }
    intros [= <-]. exists 0, path, e. rewrite Hload.
    repeat split; [done..|]. intros j q Hj. lia.
  - destruct set as [s|]; [|done].
    rewrite (imap_ext _ (λ j, loadResultOf ctx loader
                                (length (before ++ [path]) + j))); last first.
    { intros j q _. simpl. f_equal. rewrite length_app. simpl. lia. }
    intros Hpop.
    replace (S (length before)) with (length (before ++ [path])%list) in Hpop
      by (rewrite length_app; simpl; lia).
    apply IH in Hpop as (i & q & e & Hq & He & -> & Hfirst).
    + exists (S i), q, e. repeat split; [done..|].
      intros [|j] q' Hj Hq'; simpl in Hq'.
      * injection Hq' as <-. by rewrite Hload.
      * apply (Hfirst j); [lia|done].
    + by rewrite <- app_assoc.
Qed.

End construction_more.

(** What [NewValidator] returns is what the in-order pass gives on the
    results of the loads taken in configured order. *)
Lemma NewValidator_in_order ctx config loader arrival :
  arrival ≡ₚ seq 0 (length (configuredPaths config)) →
  NewValidator ctx config loader arrival
  = populate (configuredPaths config) 0
      (imap (loadResultOf ctx loader) (configuredPaths config)) [].
Proof.
  intros Hperm. unfold NewValidator. fold (configuredPaths config).
  by rewrite collectResults_ordered.
Qed.

Lemma NewValidator_Built_sets ctx config loader arrival v :
  arrival ≡ₚ seq 0 (length (configuredPaths config)) →
  NewValidator ctx config loader arrival = Built v →
  Forall2 (λ path s, loader ctx path = (Some s, None))
          (configuredPaths config) (couponSets v).
Proof.
  intros Hperm Hbuilt. rewrite NewValidator_in_order in Hbuilt by done.
  pose proof (populate_ordered ctx loader (configuredPaths config)
                (configuredPaths config) [] [] eq_refl) as Hpop.
  change (length (@nil string)) with 0 in Hpop.
  change (λ j, loadResultOf ctx loader (0 + j))
    with (loadResultOf ctx loader) in Hpop.
  rewrite Hbuilt in Hpop.
  by destruct Hpop as (new & -> & Hall).
Qed.

(** X9 — The result of [NewValidator], validator or error, does not depend
    on the order in which the concurrent loads complete. *)
Theorem NewValidator_order_independent (ctx : Context)
    (config : option ValidatorConfig) (loader : Loader)
    (arrival arrival' : list nat) :
  arrival ≡ₚ seq 0 (length (configuredPaths config)) →
  arrival' ≡ₚ seq 0 (length (configuredPaths config)) →
  NewValidator ctx config loader arrival
  = NewValidator ctx config loader arrival'.
Proof. intros H H'. by rewrite !NewValidator_in_order. Qed.

Lemma NewValidator_order_independent_witness :
  NewValidator Background (Some fixtures.brokenConfig) fixtures.loader [2; 1; 0]
  = NewValidator Background (Some fixtures.brokenConfig) fixtures.loader [0; 1; 2].
Proof.
  apply NewValidator_order_independent.
  - simpl. change [2; 1; 0] with (reverse [0; 1; 2]).
    apply reverse_Permutation.
  - reflexivity.
Defined.

(** X10 — When several loads fail, the error [NewValidator] returns is the
    one of the first failing source in configured order, whichever load
    failed first in time. *)
Theorem NewValidator_reports_first_failure (ctx : Context)
    (config : option ValidatorConfig) (loader : Loader) (arrival : list nat)
    (e' : error) :
  arrival ≡ₚ seq 0 (length (configuredPaths config)) →
  NewValidator ctx config loader arrival = Failed e' →
  ∃ i path e,
    configuredPaths config !! i = Some path
    ∧ (loader ctx path).2 = Some e
    ∧ e' = WrapError ("failed to load coupon file " +:+ path) e
    ∧ ∀ j q, j < i → configuredPaths config !! j = Some q →
             (loader ctx q).2 = None.
Proof.
  intros Hperm Hfail. rewrite NewValidator_in_order in Hfail by done.
  by apply (populate_first_failure ctx loader (configuredPaths config)
              (configuredPaths config) [] [] e' eq_refl).
Qed.

Lemma NewValidator_reports_first_failure_witness :
  ∃ i path e,
    configuredPaths (Some (mkConfig ["coupon1.gz"; "notgzip.gz"; "missing.gz"] 2))
      !! i = Some path
    ∧ (fixtures.loader Background path).2 = Some e
    ∧ WrapError "failed to load coupon file notgzip.gz"
        (WrapError "failed to create gzip reader for notgzip.gz"
           (ExternalError "gzip: invalid header"))
      = WrapError ("failed to load coupon file " +:+ path) e
    ∧ ∀ j q, j < i →
        configuredPaths
          (Some (mkConfig ["coupon1.gz"; "notgzip.gz"; "missing.gz"] 2)) !! j
        = Some q →
        (fixtures.loader Background q).2 = None.
Proof.
  apply (NewValidator_reports_first_failure Background
           (Some (mkConfig ["coupon1.gz"; "notgzip.gz"; "missing.gz"] 2))
           fixtures.loader [2; 1; 0]).
  - simpl. change [2; 1; 0] with (reverse [0; 1; 2]).
    apply reverse_Permutation.
  - reflexivity.
Defined.

(** Sets loaded by the file loader hold a code exactly when the files do. *)
Lemma filter_loaded_sets (TrimSpace : string → string) (fs : string → Source)
    (ctx : Context) (promoCode : string) (paths : list string)
    (sets : list CouponSet) :
  Forall2 (λ path s, fileLoader_Load TrimSpace fs ctx path = (Some s, None))
          paths sets →
  length (filter (λ s, promoCode ∈ coupons s) sets)
  = length (filter (λ path, fileHolds TrimSpace fs path promoCode) paths).
Proof.
  induction 1 as [|path s paths sets Hload _ IH]; [done|].
  assert (promoCode ∈ coupons s ↔ fileHolds TrimSpace fs path promoCode)
    as Hiff.
  { unfold fileHolds, fileLoader_Load in *.
    destruct (fs path) as [| |lines tail]; [done..|].
    apply loadStream_set in Hload as (-> & _).
    by rewrite elem_of_list_to_set. }
  destruct (decide (promoCode ∈ coupons s)) as [Hin|Hout].
  - rewrite !filter_cons_True by tauto. rewrite !length_cons.
    f_equal. exact IH.
  - rewrite !filter_cons_False by tauto. exact IH.
Qed.

(** X11 — From files to verdict: for a validator built by [NewValidator]
    with the file loader, a [Validate] that returns under a context that
    never fires accepts a code of valid length exactly when the code is a
    trimmed non-empty line of at least two of the configured files. *)
Theorem Validate_accepts_iff_in_two_files (TrimSpace : string → string)
    (fs : string → Source) (loadCtx ctx : Context)
    (config : option ValidatorConfig) (arrival : list nat) (v : validator)
    (promoCode : string) (sched : list action) (e : option error) :
  arrival ≡ₚ seq 0 (length (configuredPaths config)) →
  NewValidator loadCtx config (fileLoader_Load TrimSpace fs) arrival = Built v →
  deadline ctx = None →
  8 ≤ String.length promoCode ≤ 10 →
  (Validate v ctx promoCode sched).1 = Returned e →
  (e = None ↔
   2 ≤ length (filter (λ path, fileHolds TrimSpace fs path promoCode)
                      (configuredPaths config))).
Proof.
  intros Hperm Hbuilt Hnever Hlen Hret.
  apply NewValidator_Built_sets in Hbuilt; [|done].
  rewrite <- (filter_loaded_sets _ _ _ _ _ _ Hbuilt).
  by apply (Validate_quorum_of_two v ctx promoCode sched e).
Qed.

Lemma Validate_accepts_iff_in_two_files_witness :
  (None : option error) = None ↔
  2 ≤ length (filter (λ path, fileHolds strings.TrimSpace fixtures.fs path
                                "VALIDCODE3")
                     (configuredPaths (Some (fixtures.config 2)))).
Proof.
  apply (Validate_accepts_iff_in_two_files strings.TrimSpace fixtures.fs
           fixtures.expiring Background (Some (fixtures.config 2)) [1; 0; 2]
           fixtures.threeSets "VALIDCODE3" (drain 3) None).
  - simpl. apply perm_swap.
  - reflexivity.
  - reflexivity.
  - simpl. lia.
  - reflexivity.
Defined.

(** ** validator.go: the counting protocol under any context *)

Section protocol_more.
Variable v : validator.
Variable ctx : Context.
Variable promoCode : string.

Lemma sound_launched : sound v promoCode (launched v).
Proof.
  unfold sound, launched, loopTest. case_bool_decide as HN; simpl.
  - split.
    + intros i found [[=] _]%lookup_replicate.
    + split; [lia|]. unfold trues. simpl.
      unfold totalMatches. rewrite owed_launched. lia.
  - split.
    + intros i found [[=] _]%lookup_replicate.
    + lia.
Qed.

Lemma sound_workerStep st i p :
  sound v promoCode st → sound v promoCode (workerStep v ctx promoCode i p st).
Proof.
  intros [Hlooked Hacc].
  destruct (workerStep_cases v ctx promoCode st i p)
    as [->|[(w & Hw & Hal & _ & ->)|[(s & Hw & Hs & _ & ->)|(b & Hw & Hroom & ->)]]];
    [done|..]; unfold sound; simpl.
  - split.
    + intros j found Hj. destruct (decide (i = j)) as [->|Hne].
      * rewrite list_lookup_insert_eq in Hj by by eapply lookup_lt_Some.
        done.
      * rewrite list_lookup_insert_ne in Hj by done. by apply Hlooked.
    + destruct (mainpc st) as [m c|r]; [|done].
      destruct (couponSets v !! i) as [s|] eqn:Hs.
      * pose proof (owed_insert promoCode _ _ _ _ WExit _ Hw Hs) as Hown.
        simpl in Hown. lia.
      * assert (owed promoCode (<[i := WExit]> (workers st)) (couponSets v)
                ≤ owed promoCode (workers st) (couponSets v)); [|lia].
        clear -Hs. unfold owed. revert i Hs.
        generalize (couponSets v) as sets.
        induction (workers st) as [|x ws IH]; intros [|y sets] [|i] Hs;
          simpl in *; try done; try lia.
        specialize (IH sets i Hs). lia.
  - split.
    + intros j found Hj. destruct (decide (i = j)) as [->|Hne].
      * rewrite list_lookup_insert_eq in Hj by by eapply lookup_lt_Some.
        injection Hj as <-. eauto.
      * rewrite list_lookup_insert_ne in Hj by done. by apply Hlooked.
    + destruct (mainpc st) as [m c|r]; [|done].
      pose proof (owed_insert promoCode _ _ _ _
                    (WLooked (Contains s promoCode)) _ Hw Hs) as Hown.
      simpl in Hown. lia.
  - destruct (Hlooked _ _ Hw) as (s & Hs & ->).
    split.
    + intros j found Hj. destruct (decide (i = j)) as [->|Hne].
      * rewrite list_lookup_insert_eq in Hj by by eapply lookup_lt_Some.
        done.
      * rewrite list_lookup_insert_ne in Hj by done. by apply Hlooked.
    + destruct (mainpc st) as [m c|r]; [|done].
      pose proof (owed_insert promoCode _ _ _ _ WExit _ Hw Hs) as Hown.
      simpl in Hown. rewrite trues_app. lia.
Qed.

Lemma sound_mainStep st p :
  sound v promoCode st → sound v promoCode (mainStep v ctx p st).
Proof.
  intros [Hlooked Hacc].
  destruct (mainStep_cases v ctx st p)
    as [->|[(m & c & b & rest & Hpc & Hchan & Hnq & _ & _ & ->)
           |[(m & c & b & rest & Hpc & Hchan & _ & ->)
            |(m & c & Hpc & _ & ->)]]];
    [done|..]; unfold sound; simpl; (split; [done|]);
    rewrite Hpc in Hacc; rewrite ?Hchan in Hacc;
    assert (∀ b rest, trues (b :: rest) = hit b + trues rest) as Hcons by done;
    rewrite ?Hcons in Hacc.
  - pose proof (hit_le b). split; [|lia].
    destruct b; simpl in *; lia.
  - pose proof (hit_le b). lia.
  - lia.
Qed.

Lemma sound_run sched : sound v promoCode (run v ctx promoCode sched).
Proof.
  unfold run. generalize sound_launched. generalize (launched v) as st.
  induction sched as [|a sched IH]; intros st Hst; [done|].
  simpl. apply IH. unfold step. destruct a.
  - by apply (sound_workerStep st i p) in Hst.
  - by apply (sound_mainStep st p) in Hst.
Qed.

Lemma lookedOnce_run sched : lookedOnce (run v ctx promoCode sched).
Proof.
  unfold run.
  assert (lookedOnce (launched v)) as Hinit.
  { unfold lookedOnce, launched, loopTest.
    case_bool_decide; simpl; (split; [constructor|set_solver]). }
  revert Hinit. generalize (launched v) as st.
  induction sched as [|a sched IH]; intros st Hst; [done|].
  simpl. apply IH. clear IH. destruct Hst as [Hnd Hpast].
  unfold step, lookedOnce. destruct a as [i p|p]; simpl.
  - destruct (workerStep_cases v ctx promoCode st i p)
      as [->|[(w & Hw & _ & _ & ->)|[(s & Hw & _ & _ & ->)|(b & Hw & _ & ->)]]];
      [done|..]; simpl.
    + split; [done|]. intros j Hj. destruct (decide (i = j)) as [->|Hne].
      * by rewrite list_lookup_insert_eq by by eapply lookup_lt_Some.
      * rewrite list_lookup_insert_ne by done. by apply Hpast.
    + split.
      * apply NoDup_app. split; [done|]. split; [|apply NoDup_singleton].
        intros j Hj ->%list_elem_of_singleton. by apply (Hpast i).
      * intros j Hj. destruct (decide (i = j)) as [->|Hne].
        -- by rewrite list_lookup_insert_eq by by eapply lookup_lt_Some.
        -- rewrite list_lookup_insert_ne by done. apply Hpast.
           apply elem_of_app in Hj as [Hj|Hj%list_elem_of_singleton]; done.
    + split; [done|]. intros j Hj. destruct (decide (i = j)) as [->|Hne].
      * by rewrite list_lookup_insert_eq by by eapply lookup_lt_Some.
      * rewrite list_lookup_insert_ne by done. by apply Hpast.
  - destruct (mainStep_cases v ctx st p)
      as [->|[(? & ? & ? & ? & _ & _ & _ & _ & _ & ->)
             |[(? & ? & ? & ? & _ & _ & _ & ->)
              |(? & ? & _ & _ & ->)]]]; done.
Qed.

Lemma allReturned_steps sched : ∀ st,
  allReturned st → allReturned (foldl (step v ctx promoCode) st sched).
Proof.
  induction sched as [|a sched IH]; intros st Hst; [done|].
  simpl. by apply IH, allReturned_step.
Qed.

End protocol_more.

(** X12 — Under any context and any schedule, cancellation included,
    [Validate] returns nil only for a code of 8 to 10 bytes that at least
    two sets hold. *)
Theorem Validate_accepts_only_with_quorum (v : validator) (ctx : Context)
    (promoCode : string) (sched : list action) :
  (Validate v ctx promoCode sched).1 = Returned None →
  8 ≤ String.length promoCode ≤ 10 ∧ 2 ≤ totalMatches v promoCode.
Proof.
  unfold Validate.
  destruct (decide (String.length promoCode < 8)) as [Hshort|Hok].
  { by rewrite (bool_decide_eq_true_2 _ Hshort). }
  rewrite (bool_decide_eq_false_2 _ Hok).
  destruct (decide (10 < String.length promoCode)) as [Hlong|Hok'].
  { by rewrite (bool_decide_eq_true_2 _ Hlong). }
  rewrite (bool_decide_eq_false_2 _ Hok'). simpl.
  pose proof (sound_run v ctx promoCode sched) as [_ Hret].
  destruct (mainpc _) as [m c|r]; [done|].
  case_bool_decide; [done|]. intros _. lia.
Qed.

Lemma Validate_accepts_only_with_quorum_witness :
  8 ≤ String.length "COMMON123" ≤ 10
  ∧ 2 ≤ totalMatches fixtures.threeSets "COMMON123".
Proof.
  apply (Validate_accepts_only_with_quorum fixtures.threeSets
           (mkContext (Some 9) DeadlineExceeded) "COMMON123" (drain 3)).
  reflexivity.
Defined.

(** X13 — [countMatches] never reports more than two matches, nor more
    than there are: the count stops at the second match even when every
    set holds the code. *)
Theorem countMatches_stops_at_two (v : validator) (ctx : Context)
    (promoCode : string) (sched : list action) (r : nat) :
  countMatches v ctx promoCode sched = Some r →
  r ≤ 2 ∧ r ≤ totalMatches v promoCode ∧ r ≤ length (couponSets v).
Proof.
  unfold countMatches.
  pose proof (sound_run v ctx promoCode sched) as [_ Hret].
  pose proof (wellFormed_run v ctx promoCode sched) as (_ & _ & Hmain).
  destruct (mainpc _) as [m c|r']; [done|].
  intros [= <-]. lia.
Qed.

Lemma countMatches_stops_at_two_witness :
  2 ≤ 2
  ∧ 2 ≤ totalMatches (mkValidator [fixtures.set1; fixtures.set1; fixtures.set1])
             "VALIDCODE1"
  ∧ 2 ≤ length (couponSets
                  (mkValidator [fixtures.set1; fixtures.set1; fixtures.set1])).
Proof.
  apply (countMatches_stops_at_two
           (mkValidator [fixtures.set1; fixtures.set1; fixtures.set1])
           Background "VALIDCODE1" (drain 3) 2).
  reflexivity.
Defined.

(** X14 — One [Validate] call looks into each set at most once, and only
    into sets of the validator. *)
Theorem Validate_looks_once (v : validator) (ctx : Context)
    (promoCode : string) (sched : list action) :
  NoDup (Validate v ctx promoCode sched).2
  ∧ Forall (λ i, i < length (couponSets v)) (Validate v ctx promoCode sched).2.
Proof.
  unfold Validate. destruct (_ || _); [split; constructor|].
  pose proof (lookedOnce_run v ctx promoCode sched) as [Hnd _].
  pose proof (lookups_run v ctx promoCode sched) as Hlt.
  destruct (mainpc _); [done|]. by case_bool_decide.
Qed.

(** X15 — The result channel never fills up: in every reachable state a
    goroutine that holds a lookup result finds room to send it, so its next
    move with the send case returns. *)
Theorem send_never_blocks (v : validator) (ctx : Context) (promoCode : string)
    (sched : list action) (i : nat) (found : bool) :
  workers (run v ctx promoCode sched) !! i = Some (WLooked found) →
  length (resultChan (run v ctx promoCode sched)) < length (couponSets v)
  ∧ workers (run v ctx promoCode (sched ++ [Worker i SendResult])) !! i
    = Some WExit.
Proof.
  intros Hw.
  pose proof (wellFormed_run v ctx promoCode sched) as (Hlen & Hcap & _).
  pose proof (unsent_pos _ _ _ Hw eq_refl) as Hpos.
  split; [lia|].
  unfold run in *. rewrite foldl_app.
  remember (foldl (step v ctx promoCode) (launched v) sched) as st.
  change (foldl ?f st [?a]) with (f st a).
  unfold step, workerStep. rewrite Hw.
  rewrite bool_decide_eq_true_2 by lia. simpl.
  apply list_lookup_insert_eq. by eapply lookup_lt_Some.
Qed.

Lemma send_never_blocks_witness :
  length (resultChan (run fixtures.threeSets fixtures.cancelled "COMMON123"
                        [Worker 1 SendResult]))
  < length (couponSets fixtures.threeSets)
  ∧ workers (run fixtures.threeSets Background "COMMON123"
               ([Worker 1 SendResult] ++ [Worker 1 SendResult])) !! 1
    = Some WExit.
Proof.
  split.
  - simpl. lia.
  - apply (send_never_blocks fixtures.threeSets Background "COMMON123"
             [Worker 1 SendResult] 1 true).
    reflexivity.
Defined.

(** X16 — No run of [countMatches] is stuck: whatever has happened, under
    any context, letting the goroutines move makes the main goroutine
    return and every lookup goroutine return too. *)
Theorem countMatches_never_stuck (v : validator) (ctx : Context)
    (promoCode : string) (sched : list action) :
  (∃ r, countMatches v ctx promoCode (sched ++ drain (length (couponSets v)))
        = Some r)
  ∧ allReturned (run v ctx promoCode (sched ++ drain (length (couponSets v)))).
Proof.
  split; [apply run_completes|].
  unfold run, drain. rewrite !foldl_app.
  apply allReturned_steps, drainWorkers_allReturned, wellFormed_steps,
    wellFormed_launched.
Qed.

(** X17 — Under a context that never fires the verdict on a code does not
    depend on the schedule: two runs of [Validate] that return, return the
    same error. *)
Theorem Validate_repeatable (v : validator) (ctx : Context)
    (promoCode : string) (sched sched' : list action) (e e' : option error) :
  deadline ctx = None →
  (Validate v ctx promoCode sched).1 = Returned e →
  (Validate v ctx promoCode sched').1 = Returned e' →
  e = e'.
Proof.
  intros Hnever Hret Hret'.
  destruct (decide (8 ≤ String.length promoCode ≤ 10)) as [Hlen|Hlen].
  - destruct (Validate_quorum_of_two v ctx promoCode sched e Hnever Hlen Hret)
      as [Hok Hbad].
    destruct (Validate_quorum_of_two v ctx promoCode sched' e' Hnever Hlen Hret')
      as [Hok' Hbad'].
    destruct (decide (2 ≤ totalMatches v promoCode)) as [Hq|Hq].
    + rewrite (proj2 Hok Hq). symmetry. by apply Hok'.
    + assert (totalMatches v promoCode < 2) as Hlt by lia.
      rewrite (proj2 Hbad Hlt). symmetry. by apply Hbad'.
  - unfold Validate in *.
    assert (bool_decide (String.length promoCode < 8)
            || bool_decide (10 < String.length promoCode) = true) as Hout.
    { apply orb_true_iff. rewrite !bool_decide_eq_true. lia. }
    rewrite Hout in Hret, Hret'. simpl in *. congruence.
Qed.

Lemma Validate_repeatable_witness :
  (None : option error) = None.
Proof.
  apply (Validate_repeatable fixtures.threeSets Background "VALIDCODE2"
           (drain 3)
           [Worker 1 SendResult; Worker 1 SendResult; Worker 0 SendResult;
            Worker 0 SendResult; Main RecvResult; Main RecvResult]
           None None);
    reflexivity.
Defined.

(** X18 — A [Validate] called with an already cancelled context looks into
    no set and, whatever the sets hold, answers a code of valid length with
    [ErrInvalidPromoCode] once the goroutines have moved. *)
Theorem Validate_under_cancelled_context (v : validator) (ctx : Context)
    (promoCode : string) (sched : list action) :
  deadline ctx = Some 0 →
  8 ≤ String.length promoCode ≤ 10 →
  Validate v ctx promoCode (sched ++ drain (length (couponSets v)))
  = (Returned (Some ErrInvalidPromoCode), []).
Proof.
  intros Hcancel Hlen.
  destruct (Validate_cancelled_before_call v ctx promoCode
              (sched ++ drain (length (couponSets v))) Hcancel Hlen)
    as [Hpending|Hdone]; [|done].
  exfalso. destruct (run_completes v ctx promoCode sched) as [r Hr].
  unfold countMatches in Hr. unfold Validate in Hpending.
  rewrite !bool_decide_eq_false_2 in Hpending by lia. simpl in Hpending.
  destruct (mainpc _); [done|]. by case_bool_decide.
Qed.

Lemma Validate_under_cancelled_context_witness :
  Validate fixtures.threeSets fixtures.cancelled "VALIDCODE3"
    ([Worker 2 SendResult; Main RecvResult] ++ drain 3)
  = (Returned (Some ErrInvalidPromoCode), []).
Proof.
  apply (Validate_under_cancelled_context fixtures.threeSets fixtures.cancelled
           "VALIDCODE3" [Worker 2 SendResult; Main RecvResult]).
  - reflexivity.
  - simpl. lia.
Defined.

(** ** order_service.go, order_handler.go *)

Import orders.

Lemma validateItems_None (items : list OrderItemRequest) : ∀ i,
  validateItems i items = None ↔
  Forall (λ item, req_ProductID item ≠ "" ∧ (0 < req_Quantity item)%Z) items.
Proof.
  induction items as [|item rest IH]; intros i; simpl.
  - split; [constructor|done].
  - rewrite Forall_cons.
    case_bool_decide as Hid; [naive_solver|].
    case_bool_decide as Hq; [split; [done|intros [[_ ?] _]; lia]|].
    rewrite IH. split; [|tauto]. intros ?. repeat split; [done|lia|done].
Qed.

Lemma validateItems_Some (items : list OrderItemRequest) : ∀ i e,
  validateItems i items = Some e →
  e = ErrInvalidQuantity
  ∨ ∃ k : nat,
      e = ExternalError ("item " +:+ pretty k +:+ ": product ID is required").
Proof.
  induction items as [|item rest IH]; intros i e; simpl; [done|].
  case_bool_decide; [intros [= <-]; eauto|].
  case_bool_decide; [intros [= <-]; eauto|]. apply IH.
Qed.

(** X19 — [validateOrderRequest] accepts a request exactly when it is not
    nil, has at least one item, and every item has a product id and a
    positive quantity. *)
Theorem validateOrderRequest_ok_iff (req : option OrderRequest) :
  validateOrderRequest req = None ↔
  ∃ r, req = Some r
       ∧ req_Items r ≠ []
       ∧ Forall (λ item, req_ProductID item ≠ "" ∧ (0 < req_Quantity item)%Z)
                (req_Items r).
Proof.
  unfold validateOrderRequest. destruct req as [r|]; [|naive_solver].
  case_bool_decide as Hempty.
  - split; [done|]. intros (r' & [= <-] & Hne & _).
    by apply nil_length_inv in Hempty.
  - rewrite validateItems_None. split.
    + intros Hall. exists r. repeat split; [|done].
      intros Hnil. by rewrite Hnil in Hempty.
    + by intros (r' & [= <-] & _ & Hall).
Qed.

Section order_flow_facts.
Context {UUID : Type} {Time : Type} {Product : Type}.
Implicit Types (c : @collaborators UUID Time Product).

Lemma createInTx_calls c req ids :
  (CallRollback ∈ (createInTx c req ids).2
   ↔ (createInTx c req ids).1.2 ≠ None)
  ∧ (CallBeginTx ∉ (createInTx c req ids).2)
  ∧ (∀ code, CallValidate code ∉ (createInTx c req ids).2).
Proof.
  unfold createInTx.
  repeat case_match; simpl; rewrite ?elem_of_cons, ?elem_of_nil;
    (split; [|split; [|intros code]]);
    rewrite ?elem_of_cons, ?elem_of_nil; naive_solver.
Qed.

Lemma createChecked_calls c req :
  (CallRollback ∈ (createChecked c req).2
   ↔ CallBeginTx ∈ (createChecked c req).2 ∧ BeginTx c = None
     ∧ (createChecked c req).1.2 ≠ None)
  ∧ (CallBeginTx ∈ (createChecked c req).2 →
     ValidateProductsExist c (req_ProductID <$> req_Items req) = None)
  ∧ (∀ code, CallValidate code ∉ (createChecked c req).2).
Proof.
  unfold createChecked.
  destruct (ValidateProductsExist c _) as [e|] eqn:Hexist; simpl.
  { rewrite ?elem_of_cons, ?elem_of_nil.
    split; [|split; [|intros code; rewrite ?elem_of_cons, ?elem_of_nil]];
      naive_solver. }
  destruct (BeginTx c) as [e|] eqn:Hbegin; simpl.
  { split; [|split; [|intros code]];
      rewrite ?elem_of_cons, ?elem_of_nil; naive_solver. }
  destruct (createInTx_calls c req (req_ProductID <$> req_Items req))
    as (Hrb & Hbt & Hval).
  destruct (createInTx c req _) as [result calls]. simpl in *.
  split; [|split; [|intros code]];
    rewrite ?elem_of_cons; [|done|specialize (Hval code)]; naive_solver.
Qed.

(** X20 — [CreateOrder] attempts a rollback exactly when it fails after
    the transaction was begun: never on success, never for a failure
    before [BeginTx] or of [BeginTx] itself. *)
Theorem CreateOrder_rollback_discipline c (req : option OrderRequest) :
  CallRollback ∈ (CreateOrder c req).2 ↔
  CallBeginTx ∈ (CreateOrder c req).2
  ∧ BeginTx c = None
  ∧ (CreateOrder c req).1.2 ≠ None.
Proof.
  unfold CreateOrder.
  destruct (validateOrderRequest req) as [e|]; simpl.
  { rewrite !elem_of_nil. naive_solver. }
  destruct req as [r|]; simpl; [|rewrite !elem_of_nil; naive_solver].
  pose proof (createChecked_calls c r) as (Hrb & _ & _).
  destruct (req_CouponCode r) as [code|]; [|done].
  case_bool_decide; [|done].
  destruct (validate c code) as [e|]; simpl.
  { rewrite !elem_of_cons, !elem_of_nil. naive_solver. }
  destruct (createChecked c r) as [result calls]. simpl in *.
  rewrite !elem_of_cons. naive_solver.
Qed.

(** X21 — No transaction is begun before every check has passed: the
    request is valid, a non-empty coupon code was accepted by the
    validator, and the products exist. *)
Theorem CreateOrder_checks_before_transaction c (req : option OrderRequest) :
  CallBeginTx ∈ (CreateOrder c req).2 →
  ∃ r, req = Some r
       ∧ validateOrderRequest req = None
       ∧ (∀ code, req_CouponCode r = Some code → code ≠ "" →
                  validate c code = None)
       ∧ ValidateProductsExist c (req_ProductID <$> req_Items r) = None.
Proof.
  unfold CreateOrder.
  destruct (validateOrderRequest req) as [e|] eqn:Hvalid; simpl.
  { by rewrite elem_of_nil. }
  destruct req as [r|]; simpl; [|by rewrite elem_of_nil].
  pose proof (createChecked_calls c r) as (_ & Hexist & _).
  intros Hbegin. exists r. split; [done|]. split; [done|].
  destruct (req_CouponCode r) as [code|]; [|by split; [|apply Hexist]].
  case_bool_decide as Hne.
  - destruct (validate c code) as [e|] eqn:Hcoupon; simpl in Hbegin.
    { rewrite !elem_of_cons, !elem_of_nil in Hbegin. naive_solver. }
    destruct (createChecked c r) as [result calls]. simpl in *.
    rewrite elem_of_cons in Hbegin. split; [|naive_solver].
    by intros code' [= <-] _.
  - split; [|by apply Hexist]. intros code' [= <-] Hne'. by destruct Hne.
Qed.

(** X22 — On success the response lists the requested items in order with
    their product ids and quantities, every item carries the id of the
    order, and the transaction was committed and not rolled back. *)
Theorem CreateOrder_success c (req : option OrderRequest)
    (resp : OrderResponse) (calls : list call) :
  CreateOrder c req = ((Some resp, None), calls) →
  ∃ r, req = Some r
       ∧ (λ item, (item_ProductID item, item_Quantity item)) <$> resp_Items resp
         = (λ item, (req_ProductID item, req_Quantity item)) <$> req_Items r
       ∧ Forall (λ item, item_OrderID item = resp_ID resp) (resp_Items resp)
       ∧ resp_Products resp = (GetByIDs c (req_ProductID <$> req_Items r)).1
       ∧ CallCommit ∈ calls
       ∧ CallRollback ∉ calls.
Proof.
  assert (∀ r calls', createChecked c r = ((Some resp, None), calls') →
            (λ item, (item_ProductID item, item_Quantity item)) <$> resp_Items resp
            = (λ item, (req_ProductID item, req_Quantity item)) <$> req_Items r
            ∧ Forall (λ item, item_OrderID item = resp_ID resp) (resp_Items resp)
            ∧ resp_Products resp = (GetByIDs c (req_ProductID <$> req_Items r)).1
            ∧ CallCommit ∈ calls' ∧ CallRollback ∉ calls') as Hchecked.
  { intros r calls'. unfold createChecked, createInTx.
    repeat case_match; simpl; intros ?; simplify_eq/=.
    split; [|split; [|split; [done|]]].
    - unfold makeOrderItems. apply list_eq. intros i.
      rewrite !list_lookup_fmap, list_lookup_imap.
      by destruct (req_Items r !! i).
    - unfold makeOrderItems. apply Forall_lookup. intros i item.
      rewrite list_lookup_imap.
      destruct (req_Items r !! i); simpl; by intros [= <-].
    - rewrite !elem_of_cons, !elem_of_nil. naive_solver. }
  unfold CreateOrder.
  destruct (validateOrderRequest req) as [e|]; [done|].
  destruct req as [r|]; [|done].
  destruct (req_CouponCode r) as [code|].
  - case_bool_decide.
    + destruct (validate c code) as [e|]; [done|].
      destruct (createChecked c r) as [result calls'] eqn:Hflow.
      intros [= -> <-]. exists r. split; [done|].
      destruct (Hchecked r calls' Hflow) as (? & ? & ? & ? & ?).
      repeat split; try done; rewrite elem_of_cons; naive_solver.
    + intros Hflow. exists r. split; [done|]. by eapply Hchecked.
  - intros Hflow. exists r. split; [done|]. by eapply Hchecked.
Qed.

(** X23 — A failure of the product lookup that follows the commit is the
    only error [CreateOrder] returns for a committed order: the caller gets
    "failed to retrieve product details" and a rollback is attempted on the
    transaction already committed. *)
Theorem CreateOrder_error_after_commit c (req : option OrderRequest)
    (err : error) :
  (CreateOrder c req).1.2 = Some err →
  CallCommit ∈ (CreateOrder c req).2 →
  Commit c = None →
  (∃ e, err = WrapError "failed to retrieve product details" e)
  ∧ last (CreateOrder c req).2 = Some CallRollback.
Proof.
  assert (∀ r, (createChecked c r).1.2 = Some err →
               CallCommit ∈ (createChecked c r).2 → Commit c = None →
               (∃ e, err = WrapError "failed to retrieve product details" e)
               ∧ last (createChecked c r).2 = Some CallRollback
               ∧ (createChecked c r).2 ≠ []) as Hchecked.
  { intros r. unfold createChecked, createInTx.
    repeat case_match; simpl; intros ? Hin ?; simplify_eq/=;
      rewrite ?elem_of_cons, ?elem_of_nil in Hin; try naive_solver. }
  unfold CreateOrder.
  destruct (validateOrderRequest req) as [e|]; simpl.
  { intros _. by rewrite elem_of_nil. }
  destruct req as [r|]; simpl; [|done].
  destruct (req_CouponCode r) as [code|];
    [|intros; by edestruct Hchecked as (? & ? & _)].
  case_bool_decide; [|intros; by edestruct Hchecked as (? & ? & _)].
  destruct (validate c code) as [e|]; simpl.
  { intros _. rewrite !elem_of_cons, !elem_of_nil. naive_solver. }
  specialize (Hchecked r).
  destruct (createChecked c r) as [result calls']. simpl in *.
  intros Herr Hin Hcommit. rewrite elem_of_cons in Hin.
  destruct Hin as [[=]|Hin].
  destruct (Hchecked Herr Hin Hcommit) as (? & Hlast & Hne).
  split; [done|]. destruct calls'; [done|]. done.
Qed.

(** X26 — The validator is consulted exactly for a valid request that
    carries a non-empty coupon code, and then with that code. *)
Theorem CreateOrder_validates_coupon c (req : option OrderRequest)
    (code : string) :
  CallValidate code ∈ (CreateOrder c req).2 ↔
  ∃ r, req = Some r
       ∧ validateOrderRequest req = None
       ∧ req_CouponCode r = Some code
       ∧ code ≠ "".
Proof.
  unfold CreateOrder.
  destruct (validateOrderRequest req) as [e|] eqn:Hvalid; simpl.
  { rewrite elem_of_nil. naive_solver. }
  destruct req as [r|]; simpl; [|rewrite elem_of_nil; naive_solver].
  pose proof (createChecked_calls c r) as (_ & _ & Hval).
  destruct (req_CouponCode r) as [code'|] eqn:Hcode;
    [|specialize (Hval code); naive_solver].
  case_bool_decide as Hne; [|specialize (Hval code); naive_solver].
  destruct (validate c code') as [e|]; simpl.
  { rewrite !elem_of_cons, !elem_of_nil. naive_solver. }
  specialize (Hval code).
  destruct (createChecked c r) as [result calls]. simpl in *.
  rewrite elem_of_cons. naive_solver.
Qed.

End order_flow_facts.

Lemma CreateOrder_rollback_discipline_witness :
  CallRollback ∈ (CreateOrder order_fixtures.detailsDown
                    (Some (order_fixtures.request (Some "COMMON123")))).2.
Proof.
  apply (CreateOrder_rollback_discipline order_fixtures.detailsDown
           (Some (order_fixtures.request (Some "COMMON123")))).
  split; [|split; [reflexivity|discriminate]].
  simpl. rewrite !elem_of_cons. tauto.
Defined.

Lemma CreateOrder_checks_before_transaction_witness :
  ∃ r, Some (order_fixtures.request (Some "COMMON123")) = Some r
       ∧ validateOrderRequest (Some (order_fixtures.request (Some "COMMON123")))
         = None
       ∧ (∀ code, req_CouponCode r = Some code → code ≠ "" →
                  validate order_fixtures.healthy code = None)
       ∧ ValidateProductsExist order_fixtures.healthy
           (req_ProductID <$> req_Items r) = None.
Proof.
  apply (CreateOrder_checks_before_transaction order_fixtures.healthy
           (Some (order_fixtures.request (Some "COMMON123")))).
  simpl. rewrite !elem_of_cons. tauto.
Defined.

Lemma CreateOrder_success_witness :
  ∃ r, Some (order_fixtures.request None) = Some r
       ∧ (λ item, (item_ProductID item, item_Quantity item))
           <$> [mkOrderItem 101 100 "1" 2%Z; mkOrderItem 102 100 "7" 1%Z]
         = (λ item, (req_ProductID item, req_Quantity item)) <$> req_Items r
       ∧ Forall (λ item : @OrderItem nat, item_OrderID item = 100)
                [mkOrderItem 101 100 "1" 2%Z; mkOrderItem 102 100 "7" 1%Z]
       ∧ ["1"; "7"]
         = (GetByIDs order_fixtures.healthy (req_ProductID <$> req_Items r)).1
       ∧ CallCommit
           ∈ (CreateOrder order_fixtures.healthy
                (Some (order_fixtures.request None))).2
       ∧ CallRollback
           ∉ (CreateOrder order_fixtures.healthy
                (Some (order_fixtures.request None))).2.
Proof.
  apply (CreateOrder_success order_fixtures.healthy
           (Some (order_fixtures.request None))
           (mkOrderResponse 100
              [mkOrderItem 101 100 "1" 2%Z; mkOrderItem 102 100 "7" 1%Z]
              ["1"; "7"])).
  reflexivity.
Defined.

Lemma CreateOrder_error_after_commit_witness :
  (∃ e, WrapError "failed to retrieve product details"
          (ExternalError "connection reset")
        = WrapError "failed to retrieve product details" e)
  ∧ last (CreateOrder order_fixtures.detailsDown
            (Some (order_fixtures.request None))).2
    = Some CallRollback.
Proof.
  apply (CreateOrder_error_after_commit order_fixtures.detailsDown
           (Some (order_fixtures.request None))).
  - reflexivity.
  - simpl. rewrite !elem_of_cons. tauto.
  - reflexivity.
Defined.

(** The product lookup failing after the commit: the order and its items
    were written and committed, and the caller still gets an error. *)
Example CreateOrder_committed_yet_failed :
  CreateOrder order_fixtures.detailsDown (Some (order_fixtures.request None))
  = ((None, Some (WrapError "failed to retrieve product details"
                    (ExternalError "connection reset"))),
     [CallValidateProductsExist ["1"; "7"]; CallBeginTx;
      CallCreateOrder (mkOrder 100 None 0 0);
      CallCreateOrderItems
        [mkOrderItem 101 100 "1" 2%Z; mkOrderItem 102 100 "7" 1%Z];
      CallCommit; CallGetByIDs ["1"; "7"]; CallRollback]).
Proof. reflexivity. Qed.

Lemma stringsContains_app_r (a b substr : string) :
  stringsContains b substr = true → stringsContains (a +:+ b) substr = true.
Proof.
  intros Hb. induction a as [|ch a IH]; [done|].
  change (String ch a +:+ b) with (String ch (a +:+ b)).
  simpl. rewrite IH. apply orb_true_r.
Qed.

(** Every error of [validateOrderRequest] is one [Create] answers with
    400. *)
Lemma createErrorStatus_validation (req : option OrderRequest) (e : error) :
  validateOrderRequest req = Some e → (createErrorStatus e).1 = 400.
Proof.
  unfold validateOrderRequest. destruct req as [r|].
  - case_bool_decide.
    + by intros [= <-].
    + intros [->|[k ->]]%validateItems_Some; [done|].
      unfold createErrorStatus.
      rewrite !bool_decide_eq_false_2 by done.
      cbn [Error].
      rewrite (stringsContains_app_r "item "
                 (pretty k +:+ ": product ID is required") "required"); [done|].
      by apply stringsContains_app_r.
  - by intros [= <-].
Qed.

Section handler_facts.
Context {UUID : Type} {Time : Type} {Product : Type}.
Implicit Type c : @collaborators UUID Time Product.

(** X24 — A POST whose body decodes into a request that
    [validateOrderRequest] rejects is answered with status 400, and no
    collaborator is called. *)
Theorem Create_invalid_request_is_400 c (req : OrderRequest) (e : error) :
  validateOrderRequest (Some req) = Some e →
  ∃ message, Create c "POST" (Some req) = ((400, inl message), []).
Proof.
  intros Hinvalid. pose proof (createErrorStatus_validation _ _ Hinvalid) as Hst.
  unfold Create, CreateOrder. rewrite Hinvalid. simpl.
  destruct (createErrorStatus e) as [status message]. simpl in Hst.
  subst status. eauto.
Qed.

(** X25 — A coupon code the validator rejects for its length is answered
    with status 500 and "failed to create order", while one it rejects for
    lack of quorum is answered with 400 and "invalid promo code"; in both
    cases nothing but the validator was called. *)
Theorem Create_promo_error_status c (req : OrderRequest) (code : string) :
  validateOrderRequest (Some req) = None →
  req_CouponCode req = Some code →
  code ≠ "" →
  (validate c code = Some ErrInvalidPromoLength →
   Create c "POST" (Some req)
   = ((500, inl "failed to create order"), [CallValidate code]))
  ∧ (validate c code = Some ErrInvalidPromoCode →
     Create c "POST" (Some req)
     = ((400, inl "invalid promo code"), [CallValidate code])).
Proof.
  intros Hvalid Hcode Hne.
  unfold Create, CreateOrder. rewrite Hvalid, Hcode.
  rewrite (bool_decide_eq_true_2 _ Hne). simpl.
  split; intros ->; reflexivity.
Qed.

End handler_facts.

Lemma Create_invalid_request_is_400_witness :
  ∃ message,
    Create order_fixtures.healthy "POST" (Some order_fixtures.badRequest)
    = ((400, inl message), []).
Proof.
  apply (Create_invalid_request_is_400 order_fixtures.healthy
           order_fixtures.badRequest
           (ExternalError "item 1: product ID is required")).
  reflexivity.
Defined.

Lemma Create_promo_error_status_witness :
  Create order_fixtures.strict "POST"
    (Some (order_fixtures.request (Some "SHORT")))
  = ((500, inl "failed to create order"), [CallValidate "SHORT"])
  ∧ Create order_fixtures.healthy "POST"
      (Some (order_fixtures.request (Some "VALIDCODE9")))
    = ((400, inl "invalid promo code"), [CallValidate "VALIDCODE9"]).
Proof.
  split.
  - apply (proj1 (Create_promo_error_status order_fixtures.strict
                    (order_fixtures.request (Some "SHORT")) "SHORT"
                    eq_refl eq_refl ltac:(discriminate)));
      reflexivity.
  - apply (proj2 (Create_promo_error_status order_fixtures.healthy
                    (order_fixtures.request (Some "VALIDCODE9")) "VALIDCODE9"
                    eq_refl eq_refl ltac:(discriminate)));
      reflexivity.
Defined.

(** The message sent for a missing product id names the item. *)
Example Create_names_the_item :
  Create order_fixtures.healthy "POST" (Some order_fixtures.badRequest)
  = ((400, inl "item 1: product ID is required"), []).
Proof. reflexivity. Qed.
